(** * Range-over-function iterators in Go: a linked stack, [Filter] and [Max]

    A shallow embedding of [stack.go], [bug.go] and the filter program, and
    the properties their specification states about them.

    - Straight-line methods ([Push], [Pop], [Items], [Next]) are functions
      on an explicit store: the heap of [node]s, the [Stack] objects and the
      [StackIterator] objects, each addressed by a pointer.
    - Functions that call back into unknown code ([Iter], [Ints], [Filter])
      are interaction trees: a call of a function value received from the
      caller is an event, so one tree describes the function against every
      caller.  [range] drives a tree with a consumer ([run]); [iter.Pull]
      suspends it at each [yield] ([resume], [pull], [stop]).  The
      callbacks are total functions of their argument and the memory. *)

From ITree Require Import ITree Eq.Shallow.
From stdpp Require Import gmap list strings pretty.

(** ** Go values *)

(** The zero value of a type: what [var v T] declares. *)
Class Zero (T : Type) := zero : T.

(** [cmp.Ordered]: the types that support [>]. *)
Class Ordered (T : Type) := gt : T -> T -> bool.

(** The orders for which [Max] is specified: [>] is a strict total order.
    (Go's floating-point types are [cmp.Ordered] but, with NaN, not total.) *)
Class TotalOrder (T : Type) `{Ordered T} := {
  gt_irrefl : forall x : T, gt x x = false;
  gt_trans : forall x y z : T, gt x y = true -> gt y z = true -> gt x z = true;
  gt_total : forall x y : T, gt x y = true \/ x = y \/ gt y x = true
}.

(** How [fmt.Println] formats a value. *)
Class Fmt (T : Type) := sprint : T -> string.

(** A non-nil [error], by its message; the nil error is [None]. *)
Inductive error := ErrorString (msg : string).

(** [var ErrEmpty = errors.New("empty stack")] *)
Definition ErrEmpty : error := ErrorString "empty stack".

(** ** The store *)

(** Pointers.  A nil pointer is [None] in an [option loc]. *)
Abbreviation loc := positive.

(** [type node[T any] struct { value T; next *node[T] }] *)
Record node (T : Type) := Node { value : T; next : option loc }.
Arguments Node {T} value next.
Arguments value {T} n.
Arguments next {T} n.

(** [type Stack[T any] struct { head *node[T] }] *)
Record Stack := MkStack { head : option loc }.

(** [type StackIterator[T any] struct { node *node[T] }] *)
Record StackIterator := MkStackIterator { it_node : option loc }.

(** The memory of a running program: the three kinds of objects the stack
    code allocates, and [ext], the variables of the surrounding program
    (what the closures passed as [yield] and [pred] capture). *)
Record world (T U : Type) := World {
  nodes : gmap loc (node T);
  stacks : gmap loc Stack;
  iters : gmap loc StackIterator;
  ext : U
}.
Arguments World {T U} nodes stacks iters ext.
Arguments nodes {T U} w.
Arguments stacks {T U} w.
Arguments iters {T U} w.
Arguments ext {T U} w.

(** The outcome of running Go code: it returns, it panics (nil or invalid
    pointer dereference), or the bound on the number of steps is reached. *)
Inductive res (A : Type) := Done (a : A) | Panic | OutOfFuel.
Arguments Done {A} a.
Arguments Panic {A}.
Arguments OutOfFuel {A}.

(** ** Functions that call functions

    [type Seq[V any] func(yield func(V) bool)].  The body of such a function
    is a tree of events: calls of function values the caller supplied, and
    loads from the store. *)

Variant goE (T : Type) : Type -> Type :=
| Yield (v : T) : goE T bool               (* the consumer: [yield(v)] *)
| CallPred (v : T) : goE T bool            (* a caller's predicate: [pred(v)] *)
| GetHead (s : loc) : goE T (option loc)   (* [s.head] *)
| GetValue (n : loc) : goE T T             (* [n.value] *)
| GetNext (n : loc) : goE T (option loc).  (* [n.next] *)
Arguments Yield {T} v.
Arguments CallPred {T} v.
Arguments GetHead {T} s.
Arguments GetValue {T} n.
Arguments GetNext {T} n.

#[global] Instance itree_mret {E} : MRet (itree E) := fun _ a => Ret a.
#[global] Instance itree_mbind {E} : MBind (itree E) :=
  fun _ _ f m => ITree.bind m f.

(** [iter.Seq[T]] *)
Definition Seq (T : Type) : Type :=
  (T -> itree (goE T) bool) -> itree (goE T) unit.

(** The [yield] that hands the value to whoever drives the sequence. *)
Definition yield_to_driver {T} (v : T) : itree (goE T) bool :=
  ITree.trigger (Yield v).

(** A predicate that is an unknown function of the caller. *)
Definition pred_of_caller {T} (v : T) : itree (goE T) bool :=
  ITree.trigger (CallPred v).

(** One call of a function value, with the answer it gave. *)
Inductive call (T : Type) :=
| YieldCall (v : T) (b : bool)
| PredCall (v : T) (b : bool).
Arguments YieldCall {T} v b.
Arguments PredCall {T} v b.

(** The values passed to [yield], in order. *)
Definition yielded {T} (tr : list (call T)) : list T :=
  omap (fun c => match c with YieldCall v _ => Some v | PredCall _ _ => None end) tr.

(** The values passed to [pred], in order. *)
Definition pred_args {T} (tr : list (call T)) : list T :=
  omap (fun c => match c with PredCall v _ => Some v | YieldCall _ _ => None end) tr.

(** The answers [yield] gave, in order. *)
Definition yield_answers {T} (tr : list (call T)) : list bool :=
  omap (fun c => match c with YieldCall _ b => Some b | PredCall _ _ => None end) tr.

Section Runtime.
Context {T U : Type} `{Zero T}.

(** What the caller's functions do: any function of the argument and the
    memory, returning an answer and the memory it leaves. *)
Record callbacks := Callbacks {
  on_yield : T -> world T U -> bool * world T U;
  on_pred : T -> world T U -> bool * world T U
}.

(** One event: its answer, the memory after it, and the call it made. *)
Definition handle (cb : callbacks) {X} (e : goE T X) (w : world T U)
  : res (X * world T U * list (call T)) :=
  match e in goE _ X return res (X * world T U * list (call T)) with
  | Yield v => let '(b, w1) := on_yield cb v w in Done (b, w1, [YieldCall v b])
  | CallPred v => let '(b, w1) := on_pred cb v w in Done (b, w1, [PredCall v b])
  | GetHead s =>
      match stacks w !! s with
      | Some st => Done (head st, w, [])
      | None => Panic
      end
  | GetValue n =>
      match nodes w !! n with
      | Some nd => Done (value nd, w, [])
      | None => Panic
      end
  | GetNext n =>
      match nodes w !! n with
      | Some nd => Done (next nd, w, [])
      | None => Panic
      end
  end.

(** Running a function body to its return: the result, the memory it
    leaves, and the calls it made, in order.  [for v := range seq { body }]
    is [run cb fuel (seq yield_to_driver) w] with [on_yield cb] the body. *)
Fixpoint run {R} (cb : callbacks) (fuel : nat) (t : itree (goE T) R) (w : world T U)
  : res (R * world T U * list (call T)) :=
  match fuel with
  | 0 => OutOfFuel
  | S fuel' =>
      match observe t with
      | RetF r => Done (r, w, [])
      | TauF t' => run cb fuel' t' w
      | VisF e k =>
          match handle cb e w with
          | Done (x, w1, c) =>
              match run cb fuel' (k x) w1 with
              | Done (r, w2, tr) => Done (r, w2, c ++ tr)
              | Panic => Panic
              | OutOfFuel => OutOfFuel
              end
          | Panic => Panic
          | OutOfFuel => OutOfFuel
          end
      end
  end.

(** ** iter.Pull *)

(** Running a sequence body up to its next [yield]: [None] when it returns
    first, else the value and the body suspended inside [yield], waiting for
    its answer. *)
Fixpoint resume (cb : callbacks) (fuel : nat) (t : itree (goE T) unit) (w : world T U)
  : res (option (T * (bool -> itree (goE T) unit)) * world T U) :=
  match fuel with
  | 0 => OutOfFuel
  | S fuel' =>
      match observe t with
      | RetF _ => Done (None, w)
      | TauF t' => resume cb fuel' t' w
      | VisF e k =>
          match e in goE _ X
                return (X -> itree (goE T) unit) ->
                       res (option (T * (bool -> itree (goE T) unit)) * world T U)
          with
          | Yield v => fun k => Done (Some (v, k), w)
          | e' => fun k =>
              match handle cb e' w with
              | Done (x, w1, _) => resume cb fuel' (k x) w1
              | Panic => Panic
              | OutOfFuel => OutOfFuel
              end
          end k
      end
  end.

(** The state shared by the [next] and [stop] of one [iter.Pull]: the
    sequence not yet started, suspended inside a [yield], or over. *)
Inductive coro :=
| Fresh (seq : Seq T)
| Suspended (k : bool -> itree (goE T) unit)
| Finished.

(** Modelled from the spec: the Pull Adapter, [iter.Pull] of the Go standard
    library, which starts nothing: the producer runs when first pulled. *)
Definition Pull (seq : Seq T) : coro := Fresh seq.

(** What a coroutine runs when it is resumed for a next element: the whole
    sequence, handing its values over through [yield], or the rest of it,
    the pending [yield] answering true; nothing once it is over. *)
Definition pending (c : coro) : option (itree (goE T) unit) :=
  match c with
  | Fresh seq => Some (seq yield_to_driver)
  | Suspended k => Some (k true)
  | Finished => None
  end.

(** Modelled from the spec: the Pull Adapter's [Next], called [pull] in
    [Max].  It resumes the producer until it emits its next element and
    returns it with [present = true]; when the producer has no more elements
    it returns the zero value and [present = false], and keeps doing so. *)
Definition pull (cb : callbacks) (fuel : nat) (c : coro) (w : world T U)
  : res ((T * bool) * coro * world T U) :=
  match pending c with
  | Some t =>
      match resume cb fuel t w with
      | Done (Some (v, k), w1) => Done ((v, true), Suspended k, w1)
      | Done (None, w1) => Done ((zero, false), Finished, w1)
      | Panic => Panic
      | OutOfFuel => OutOfFuel
      end
  | None => Done ((zero, false), Finished, w)
  end.

(** Modelled from the spec: the Pull Adapter's [Stop].  The pending [yield],
    and every later one, answers false without calling anything; the
    producer unwinds to its return.  Safe to call again. *)
Definition stop (cb : callbacks) (fuel : nat) (c : coro) (w : world T U)
  : res (coro * world T U) :=
  match c with
  | Fresh _ => Done (Finished, w)
  | Suspended k =>
      match run (Callbacks (fun _ w' => (false, w')) (on_pred cb)) fuel (k false) w with
      | Done (_, w1, _) => Done (Finished, w1)
      | Panic => Panic
      | OutOfFuel => OutOfFuel
      end
  | Finished => Done (Finished, w)
  end.

End Runtime.
Arguments callbacks T U : clear implicits.
Arguments coro T : clear implicits.

(** ** stack.go: the container *)

Section StackMethods.
Context {T U : Type} `{Zero T}.

(** [var s Stack[T]]: a new stack, its head nil. *)
Definition NewStack (w : world T U) : loc * world T U :=
  let s := fresh (dom (stacks w)) in
  (s, World (nodes w) (<[s := MkStack None]> (stacks w)) (iters w) (ext w)).

(** [func (s *Stack[T]) Push(v T)]:
    [s.head = &node[T]{v, s.head}] *)
Definition Push (s : loc) (v : T) (w : world T U) : res (unit * world T U) :=
  match stacks w !! s with
  | None => Panic
  | Some st =>
      let n := fresh (dom (nodes w)) in
      Done (tt, World (<[n := Node v (head st)]> (nodes w))
                      (<[s := MkStack (Some n)]> (stacks w))
                      (iters w) (ext w))
  end.

(** [func (s *Stack[T]) Pop() (T, error)] *)
Definition Pop (s : loc) (w : world T U) : res ((T * option error) * world T U) :=
  match stacks w !! s with
  | None => Panic
  | Some st =>
      match head st with
      | None => Done ((zero, Some ErrEmpty), w)
      | Some p =>
          match nodes w !! p with
          | None => Panic
          | Some n =>
              Done ((value n, None),
                    World (nodes w) (<[s := MkStack (next n)]> (stacks w))
                          (iters w) (ext w))
          end
      end
  end.

(** [func (s *Stack[T]) Items() *StackIterator[T]]:
    [return &StackIterator[T]{s.head}] *)
Definition Items (s : loc) (w : world T U) : res (loc * world T U) :=
  match stacks w !! s with
  | None => Panic
  | Some st =>
      let c := fresh (dom (iters w)) in
      Done (c, World (nodes w) (stacks w)
                     (<[c := MkStackIterator (head st)]> (iters w)) (ext w))
  end.

(** [func (s *StackIterator[T]) Next() (T, bool)] *)
Definition Next (c : loc) (w : world T U) : res ((T * bool) * world T U) :=
  match iters w !! c with
  | None => Panic
  | Some it =>
      match it_node it with
      | None => Done ((zero, false), w)
      | Some p =>
          match nodes w !! p with
          | None => Panic
          | Some n =>
              Done ((value n, true),
                    World (nodes w) (stacks w)
                          (<[c := MkStackIterator (next n)]> (iters w)) (ext w))
          end
      end
  end.

(** The loop of [main] over a cursor,
    [for v, ok := it.Next(); ok; v, ok = it.Next() { ... }],
    collecting the values it visits. *)
Fixpoint drain (fuel : nat) (c : loc) (w : world T U) : res (list T * world T U) :=
  match fuel with
  | 0 => OutOfFuel
  | S fuel' =>
      match Next c w with
      | Done ((v, ok), w1) =>
          if ok then
            match drain fuel' c w1 with
            | Done (vs, w2) => Done (v :: vs, w2)
            | Panic => Panic
            | OutOfFuel => OutOfFuel
            end
          else Done ([], w1)
      | Panic => Panic
      | OutOfFuel => OutOfFuel
      end
  end.

(** A run of pushes, [s.Push(v1); ...; s.Push(vn)]. *)
Fixpoint push_all (s : loc) (vs : list T) (w : world T U) : res (world T U) :=
  match vs with
  | [] => Done w
  | v :: vs' =>
      match Push s v w with
      | Done (_, w1) => push_all s vs' w1
      | Panic => Panic
      | OutOfFuel => OutOfFuel
      end
  end.

(** A run of [k] pops, with what each returned. *)
Fixpoint pop_n (s : loc) (k : nat) (w : world T U)
  : res (list (T * option error) * world T U) :=
  match k with
  | 0 => Done ([], w)
  | S k' =>
      match Pop s w with
      | Done (r, w1) =>
          match pop_n s k' w1 with
          | Done (rs, w2) => Done (r :: rs, w2)
          | Panic => Panic
          | OutOfFuel => OutOfFuel
          end
      | Panic => Panic
      | OutOfFuel => OutOfFuel
      end
  end.

End StackMethods.

(** ** stack.go: the sequence and its maximum *)

Section StackSeq.
Context {T U : Type} `{Zero T} `{Ordered T}.

(** One turn of the loop of [Iter], from the node pointer [n]:
    [inr tt] when the function returns, [inl] the next pointer otherwise. *)
Definition Iter_step (yield : T -> itree (goE T) bool) (n : option loc)
  : itree (goE T) (option loc + unit) :=
  match n with
  | None => Ret (inr tt)
  | Some p =>
      v ← ITree.trigger (GetValue p);
      ok ← yield v;
      if negb ok then Ret (inr tt)
      else nx ← ITree.trigger (GetNext p); Ret (inl nx)
  end.

(** [func (s *Stack[T]) Iter() func(func(T) bool)]: the function it returns,
    which reads [s.head] when it is called.

    [for n := s.head; n != nil; n = n.next { if !yield(n.value) { return } }] *)
Definition Iter (s : loc) : Seq T :=
  fun yield =>
    h ← ITree.trigger (GetHead s);
    ITree.iter (Iter_step yield) h.

(** A deferred call runs when the function returns: its effect on the
    memory stays, the function's results are those of the [return]. *)
Definition deferred {A B} (d : res (B * world T U)) (results : A) : res (A * world T U) :=
  match d with
  | Done (_, w) => Done (results, w)
  | Panic => Panic
  | OutOfFuel => OutOfFuel
  end.

(** [for v, ok := pull(); ok; v, ok = pull() { if v > m { m = v } }] *)
Fixpoint max_loop (cb : callbacks T U) (fuel : nat) (m : T) (c : coro T) (w : world T U)
  : res (T * coro T * world T U) :=
  match fuel with
  | 0 => OutOfFuel
  | S fuel' =>
      match pull cb fuel' c w with
      | Done ((v, ok), c1, w1) =>
          if ok then max_loop cb fuel' (if gt v m then v else m) c1 w1
          else Done (m, c1, w1)
      | Panic => Panic
      | OutOfFuel => OutOfFuel
      end
  end.

(** [func Max[T cmp.Ordered](seq iter.Seq[T]) (T, error)] *)
Definition Max (cb : callbacks T U) (fuel : nat) (seq : Seq T) (w : world T U)
  : res ((T * option error) * world T U) :=
  let c := Pull seq in
  match pull cb fuel c w with
  | Done ((m, ok), c1, w1) =>
      if negb ok then
        deferred (stop cb fuel c1 w1) (m, Some (ErrorString "Max of empty sequence"))
      else
        match max_loop cb fuel m c1 w1 with
        | Done (m', c2, w2) => deferred (stop cb fuel c2 w2) (m', None)
        | Panic => Panic
        | OutOfFuel => OutOfFuel
        end
  | Panic => Panic
  | OutOfFuel => OutOfFuel
  end.

End StackSeq.

(** ** bug.go *)

Module Bug.

(** [func Ints(n int) func(func(int) bool)]:
    [for i := range n { if !yield(i) { return } }]

    [int] is read as [Z]: the loop variable stays below [n], so no
    addition wraps around. *)
Definition Ints (n : Z) : Seq Z :=
  fun yield =>
    ITree.iter (fun i : Z =>
      if (i <? n)%Z then
        ok ← yield i;
        if negb ok then Ret (inr tt) else Ret (inl (i + 1)%Z)
      else Ret (inr tt)) 0%Z.

Section BugMax.
Context {T U : Type} `{Zero T} `{Ordered T} `{Fmt T}.

(** The loop of [Max], with its [fmt.Println(">>> v:", v)]; [out] is the
    text printed so far, a line per element. *)
Fixpoint max_loop (cb : callbacks T U) (fuel : nat) (m : T) (c : coro T) (w : world T U)
    (out : list string) : res (T * coro T * world T U * list string) :=
  match fuel with
  | 0 => OutOfFuel
  | S fuel' =>
      match pull cb fuel' c w with
      | Done ((v, ok), c1, w1) =>
          if ok then
            let out1 := out ++ [">>> v: " +:+ sprint v] in
            max_loop cb fuel' (if gt v m then v else m) c1 w1 out1
          else Done (m, c1, w1, out)
      | Panic => Panic
      | OutOfFuel => OutOfFuel
      end
  end.

(** [func Max[T cmp.Ordered](seq iter.Seq[T]) (T, error)], which also
    returns what it printed. *)
Definition Max (cb : callbacks T U) (fuel : nat) (seq : Seq T) (w : world T U)
  : res ((T * option error) * list string * world T U) :=
  let c := Pull seq in
  match pull cb fuel c w with
  | Done ((m, ok), c1, w1) =>
      if negb ok then
        deferred (stop cb fuel c1 w1)
                 ((m, Some (ErrorString "Max of empty sequence")), [])
      else
        let out := [">>> m: " +:+ sprint m] in
        match max_loop cb fuel m c1 w1 out with
        | Done (m', c2, w2, out') => deferred (stop cb fuel c2 w2) ((m', None), out')
        | Panic => Panic
        | OutOfFuel => OutOfFuel
        end
  | Panic => Panic
  | OutOfFuel => OutOfFuel
  end.

End BugMax.
End Bug.

(** ** The filter program *)

(** The loop of [Filter] over what is left of the slice. *)
Fixpoint Filter_loop {T} (pred yield : T -> itree (goE T) bool) (values : list T)
  : itree (goE T) unit :=
  match values with
  | [] => Ret tt
  | v :: rest =>
      b ← pred v;
      if negb b then Filter_loop pred yield rest
      else
        ok ← yield v;
        if negb ok then Ret tt else Filter_loop pred yield rest
  end.

(** [func Filter[T any](values []T, pred func(T) bool) func(func(T) bool)]

    [for _, v := range values { if !pred(v) { continue }; if !yield(v) { break } }]

    The slice is a list: no callback writes to its backing array while the
    loop runs. *)
Definition Filter {T} (values : list T) (pred : T -> itree (goE T) bool) : Seq T :=
  fun yield => Filter_loop pred yield values.

(** [type Event struct { User string; Kind string }] *)
Record Event := MkEvent { User : string; Kind : string }.

(** [func (e Event) Valid() bool] *)
Definition Valid (e : Event) : bool :=
  if bool_decide (User e = "") || bool_decide (Kind e = "") then false else true.

(** ** Instances for Go's [int] *)

#[global] Instance Z_zero : Zero Z := 0%Z.
#[global] Instance Z_ordered : Ordered Z := Z.gtb.
#[global] Instance Z_fmt : Fmt Z := pretty.

(** A world with no object in it. *)
Definition empty_world {T U} (u : U) : world T U := World ∅ ∅ ∅ u.

(** A consumer that never asks to stop and a predicate that is a pure
    function: the callbacks of [for v := range Filter(values, P) { }]. *)
Definition pure_callbacks {T U} (P : T -> bool) : callbacks T U :=
  Callbacks (fun _ w => (true, w)) (fun v w => (P v, w)).

(** ** Reading the store and the runs *)

(** The elements of a chain of nodes, from a pointer to the nil that ends
    it: what a traversal from that pointer visits. *)
Inductive chain {T} (h : gmap loc (node T)) : option loc -> list T -> Prop :=
| chain_nil : chain h None []
| chain_cons p v nx vs :
    h !! p = Some (Node v nx) -> chain h nx vs -> chain h (Some p) (v :: vs).

(** A stack with no elements. *)
Definition is_empty {T U} (w : world T U) (s : loc) : Prop :=
  stacks w !! s = Some (MkStack None).

(** What a program may do to a stack between two uses of a cursor. *)
Inductive mutation (T : Type) := DoPush (v : T) | DoPop.
Arguments DoPush {T} v.
Arguments DoPop {T}.

(** A run of such pushes and pops on the stack [s]; what the pops return
    is dropped. *)
Fixpoint mutate {T U} `{Zero T} (s : loc) (ops : list (mutation T)) (w : world T U)
  : res (world T U) :=
  match ops with
  | [] => Done w
  | op :: ops' =>
      let r := match op with
               | DoPush v => match Push s v w with
                             | Done (_, w1) => Done w1
                             | Panic => Panic
                             | OutOfFuel => OutOfFuel
                             end
               | DoPop => match Pop s w with
                          | Done (_, w1) => Done w1
                          | Panic => Panic
                          | OutOfFuel => OutOfFuel
                          end
               end in
      match r with
      | Done w1 => mutate s ops' w1
      | Panic => Panic
      | OutOfFuel => OutOfFuel
      end
  end.

(** The runs of a function body that return: [runs cb n t w r w' tr] when
    [t], started in memory [w], returns [r] after [n] steps (events and loop
    iterations), leaves [w'] and makes the calls [tr]. *)
Inductive runs {T U R} (cb : callbacks T U)
  : nat -> itree (goE T) R -> world T U -> R -> world T U -> list (call T) -> Prop :=
| runs_ret t r w :
    observe t = RetF r -> runs cb 0 t w r w []
| runs_tau n t t' w r w' tr :
    observe t = TauF t' -> runs cb n t' w r w' tr -> runs cb (S n) t w r w' tr
| runs_vis n X (e : goE T X) k t w x w1 c r w2 tr :
    observe t = VisF e k ->
    handle cb e w = Done (x, w1, c) ->
    runs cb n (k x) w1 r w2 tr ->
    runs cb (S n) t w r w2 (c ++ tr).

(** What the Sequence Protocol asks of a producer of the elements [vs]: call
    the consumer once per element, in order, and stop at the first answer
    that is false.  The memory the consumer leaves and the calls made. *)
Fixpoint protocol {T U} (yield : T -> world T U -> bool * world T U)
    (vs : list T) (w : world T U) : world T U * list (call T) :=
  match vs with
  | [] => (w, [])
  | v :: rest =>
      let '(ok, w1) := yield v w in
      if ok then
        let '(w2, tr) := protocol yield rest w1 in (w2, YieldCall v true :: tr)
      else (w1, [YieldCall v false])
  end.

(** The callbacks of a loop that never breaks and does nothing. *)
Definition to_the_end {T U} (cb : callbacks T U) : callbacks T U :=
  Callbacks (fun _ w => (true, w)) (on_pred cb).

(** The running maximum of [Max]: [if v > m { m = v }] over the rest. *)
Definition running_max {T} `{Ordered T} (m : T) (vs : list T) : T :=
  foldl (fun m v => if gt v m then v else m) m vs.

(** ** stack.go: the other traversals *)

(** Go's [int], 64 bits wide: the value an [int] computation wraps to. *)
Definition wrap_int (z : Z) : Z := ((z + 2 ^ 63) mod 2 ^ 64 - 2 ^ 63)%Z.

Section StackTraversals.
Context {T U : Type} `{Zero T} `{Fmt T}.

(** The loop of [PrintItems] from the node pointer [n]: the lines printed.
    [for n := s.head; n != nil; n = n.next { fmt.Println(n.value) }] *)
Fixpoint PrintItems_loop (fuel : nat) (n : option loc) (w : world T U)
  : res (list string) :=
  match n with
  | None => Done []
  | Some p =>
      match fuel with
      | 0 => OutOfFuel
      | S fuel' =>
          match nodes w !! p with
          | None => Panic
          | Some nd =>
              match PrintItems_loop fuel' (next nd) w with
              | Done out => Done (sprint (value nd) :: out)
              | Panic => Panic
              | OutOfFuel => OutOfFuel
              end
          end
      end
  end.

(** [func (s *Stack[T]) PrintItems()] *)
Definition PrintItems (s : loc) (fuel : nat) (w : world T U) : res (list string) :=
  match stacks w !! s with
  | None => Panic
  | Some st => PrintItems_loop fuel (head st) w
  end.

(** The loop of [Do] from the node pointer [n]: the memory [yield] leaves
    and the values it was called on.  [n.value] is read before the call and
    [n.next] after it.
    [for n := s.head; n != nil; n = n.next { yield(n.value) }] *)
Fixpoint Do_loop (fuel : nat) (yield : T -> world T U -> world T U)
    (n : option loc) (w : world T U) : res (world T U * list T) :=
  match n with
  | None => Done (w, [])
  | Some p =>
      match fuel with
      | 0 => OutOfFuel
      | S fuel' =>
          match nodes w !! p with
          | None => Panic
          | Some nd =>
              let w1 := yield (value nd) w in
              match nodes w1 !! p with
              | None => Panic
              | Some nd1 =>
                  match Do_loop fuel' yield (next nd1) w1 with
                  | Done (w2, vs) => Done (w2, value nd :: vs)
                  | Panic => Panic
                  | OutOfFuel => OutOfFuel
                  end
              end
          end
      end
  end.

(** [func (s *Stack[T]) Do(yield func(v T))] *)
Definition Do (s : loc) (yield : T -> world T U -> world T U) (fuel : nat)
    (w : world T U) : res (world T U * list T) :=
  match stacks w !! s with
  | None => Panic
  | Some st => Do_loop fuel yield (head st) w
  end.

(** The loop of [Iter2] from the index [i] and the node pointer [n]: the
    memory [yield] leaves and the calls made, each with its answer.
    [for i, n := 0, s.head; n != nil; i, n = i+1, n.next {
       if !yield(i, n.value) { return } }] *)
Fixpoint Iter2_loop (fuel : nat) (yield : Z -> T -> world T U -> bool * world T U)
    (i : Z) (n : option loc) (w : world T U)
  : res (world T U * list (Z * T * bool)) :=
  match n with
  | None => Done (w, [])
  | Some p =>
      match fuel with
      | 0 => OutOfFuel
      | S fuel' =>
          match nodes w !! p with
          | None => Panic
          | Some nd =>
              let '(ok, w1) := yield i (value nd) w in
              if negb ok then Done (w1, [(i, value nd, false)])
              else
                match nodes w1 !! p with
                | None => Panic
                | Some nd1 =>
                    match Iter2_loop fuel' yield (wrap_int (i + 1)) (next nd1) w1 with
                    | Done (w2, tr) => Done (w2, (i, value nd, true) :: tr)
                    | Panic => Panic
                    | OutOfFuel => OutOfFuel
                    end
                end
          end
      end
  end.

(** [func (s *Stack[T]) Iter2() func(func(int, T) bool)]: the function it
    returns, applied to [yield]; it reads [s.head] when it is called. *)
Definition Iter2 (s : loc) (yield : Z -> T -> world T U -> bool * world T U)
    (fuel : nat) (w : world T U) : res (world T U * list (Z * T * bool)) :=
  match stacks w !! s with
  | None => Panic
  | Some st => Iter2_loop fuel yield 0%Z (head st) w
  end.

(** A run of [k] calls of [Next] on one cursor, with what each returned. *)
Fixpoint next_n (c : loc) (k : nat) (w : world T U)
  : res (list (T * bool) * world T U) :=
  match k with
  | 0 => Done ([], w)
  | S k' =>
      match Next c w with
      | Done (r, w1) =>
          match next_n c k' w1 with
          | Done (rs, w2) => Done (r :: rs, w2)
          | Panic => Panic
          | OutOfFuel => OutOfFuel
          end
      | Panic => Panic
      | OutOfFuel => OutOfFuel
      end
  end.

End StackTraversals.

(** A stack as the list of its elements, top first: what a push and a pop
    do to it. *)
Definition apply_op {T} (vs : list T) (op : mutation T) : list T :=
  match op with
  | DoPush v => v :: vs
  | DoPop => List.tl vs
  end.

(** The Sequence Protocol for an indexed producer of the elements [vs],
    counted from [i]: the memory the consumer leaves and the calls made. *)
Fixpoint protocol2 {T U} (yield : Z -> T -> world T U -> bool * world T U)
    (i : Z) (vs : list T) (w : world T U) : world T U * list (Z * T * bool) :=
  match vs with
  | [] => (w, [])
  | v :: rest =>
      let '(ok, w1) := yield i v w in
      if ok then
        let '(w2, tr) := protocol2 yield (i + 1) rest w1 in (w2, (i, v, true) :: tr)
      else (w1, [(i, v, false)])
  end.

(** The calls of [yield] in a trace, the calls of [pred] left out. *)
Definition yield_calls {T} (tr : list (call T)) : list (call T) :=
  omap (fun c => match c with YieldCall v b => Some (YieldCall v b) | PredCall _ _ => None end) tr.

(** ** The data of [main]

    [var s Stack[int]; s.Push(10); s.Push(20); s.Push(30)] in a program
    with nothing else in its memory: the stack and the memory. *)
Definition main_stack : loc * world Z unit :=
  let '(s, w) := NewStack (empty_world tt) in
  (s, match push_all s [10; 20; 30]%Z w with Done w1 => w1 | _ => w end).

(** [var s Stack[int]] alone. *)
Definition fresh_stack : loc * world Z unit := NewStack (empty_world tt).

(** A loop body that pushes onto the stack it ranges over and breaks at the
    first element not above 15:
    [for v := range s.Iter() { s.Push(v + 1); if v <= 15 { break } }] *)
Definition pushing_callbacks : callbacks Z unit :=
  Callbacks
    (fun v w =>
       match Push main_stack.1 (v + 1)%Z w with
       | Done (_, w1) => ((15 <? v)%Z, w1)
       | _ => (false, w)
       end)
    (fun _ w => (true, w)).

(** [it := s.Items()] on the stack of [main]: the cursor and the memory. *)
Definition main_cursor : loc * world Z unit :=
  match Items main_stack.1 main_stack.2 with
  | Done (c, w) => (c, w)
  | _ => (1%positive, main_stack.2)
  end.

(** The body of [s.Do(func(v int) { s.Push(v + 1) })]. *)
Definition pushing_body (v : Z) (w : world Z unit) : world Z unit :=
  (on_yield pushing_callbacks v w).2.

(** [for v := range seq { break }] with the predicate "is even". *)
Definition first_even_callbacks : callbacks Z unit :=
  Callbacks (fun _ w => (false, w)) (fun v w => (Z.even v, w)).

(** * Properties *)

(** ** Runs *)

Section RunFacts.
Context {T U : Type} `{Zero T}.
Implicit Types (cb : callbacks T U) (w : world T U).

Lemma run_runs {R} cb fuel (t : itree (goE T) R) w r w' tr :
  run cb fuel t w = Done (r, w', tr) ->
  exists n, n < fuel /\ runs cb n t w r w' tr.
Proof.
  revert t w r w' tr. induction fuel as [|fuel IH]; intros t w r w' tr; [done|].
  simpl. destruct (observe t) as [r0|t'|X e k] eqn:Hobs.
  - intros [= <- <- <-]. exists 0. split; [lia|]. by apply runs_ret.
  - intros Hrun. destruct (IH _ _ _ _ _ Hrun) as (n & Hn & Hr).
    exists (S n). split; [lia|]. eapply runs_tau; eauto.
  - destruct (handle cb e w) as [[[x w1] c]| |] eqn:Hh; try done.
    destruct (run cb fuel (k x) w1) as [[[r1 w2] tr1]| |] eqn:Hrun; try done.
    intros [= <- <- <-]. destruct (IH _ _ _ _ _ Hrun) as (n & Hn & Hr).
    exists (S n). split; [lia|]. eapply runs_vis; eauto.
Qed.

Lemma runs_run {R} cb n (t : itree (goE T) R) w r w' tr :
  runs cb n t w r w' tr ->
  forall fuel, n < fuel -> run cb fuel t w = Done (r, w', tr).
Proof.
  induction 1 as [t r w Hobs|n t t' w r w' tr Hobs _ IH
                 |n X e k t w x w1 c r w2 tr Hobs Hh _ IH];
    intros [|fuel] ?; try lia; simpl; rewrite Hobs.
  - done.
  - apply IH. lia.
  - rewrite Hh, IH; [done|lia].
Qed.

Lemma observe_bind_cases {E A B} (t : itree E A) (k : A -> itree E B) :
  observe (ITree.bind t k) =
  match observe t with
  | RetF r => observe (k r)
  | TauF t' => TauF (ITree.bind t' k)
  | VisF e h => VisF e (fun x => ITree.bind (h x) k)
  end.
Proof. rewrite observe_bind. by destruct (observe t). Qed.

Lemma observe_iter {E I R} (body : I -> itree E (I + R)) (i : I) :
  observe (ITree.iter body i) =
  observe (ITree.bind (body i) (fun lr =>
    match lr with inl l => Tau (ITree.iter body l) | inr r => Ret r end)).
Proof. reflexivity. Qed.

(** A run only looks at a tree through [observe]. *)
Lemma runs_observe {R} cb n (t1 t2 : itree (goE T) R) w r w' tr :
  observe t1 = observe t2 -> runs cb n t1 w r w' tr -> runs cb n t2 w r w' tr.
Proof.
  intros Heq Hr.
  destruct Hr as [t r w Hobs|n t t' w r w' tr Hobs Hr
                 |n X e k t w x w1 c r w2 tr Hobs Hh Hr].
  - apply runs_ret. congruence.
  - eapply runs_tau; [|done]. congruence.
  - eapply runs_vis; [|done..]. congruence.
Qed.

Lemma runs_bind {A R} cb n1 n2 (t : itree (goE T) A) (k : A -> itree (goE T) R)
    w x w1 tr1 r w2 tr2 :
  runs cb n1 t w x w1 tr1 ->
  runs cb n2 (k x) w1 r w2 tr2 ->
  runs cb (n1 + n2) (ITree.bind t k) w r w2 (tr1 ++ tr2).
Proof.
  intros Ht Hk. induction Ht as [t x w Hobs|n t t' w x w1 tr Hobs _ IH
                                |n X e h t w y w0 c x w1 tr Hobs Hh _ IH].
  - simpl. eapply runs_observe; [|exact Hk].
    by rewrite observe_bind_cases, Hobs.
  - simpl. eapply runs_tau; [|by apply IH]. by rewrite observe_bind_cases, Hobs.
  - rewrite <-app_assoc. simpl.
    eapply (runs_vis cb _ X e (fun x => ITree.bind (h x) k)); [|done|by apply IH].
    by rewrite observe_bind_cases, Hobs.
Qed.

Lemma runs_trigger cb {X} (e : goE T X) w x w1 c :
  handle cb e w = Done (x, w1, c) -> runs cb 1 (ITree.trigger e) w x w1 c.
Proof.
  intros Hh. rewrite <-(app_nil_r c).
  eapply (runs_vis cb _ X e (fun x => Ret x)); [done|done|]. by apply runs_ret.
Qed.

Lemma runs_iter_again {I R} cb n1 n2 (body : I -> itree (goE T) (I + R))
    i i' w w1 tr1 r w2 tr2 :
  runs cb n1 (body i) w (inl i') w1 tr1 ->
  runs cb n2 (ITree.iter body i') w1 r w2 tr2 ->
  runs cb (n1 + S n2) (ITree.iter body i) w r w2 (tr1 ++ tr2).
Proof.
  intros Hb Hi. eapply runs_observe; [symmetry; apply observe_iter|].
  eapply runs_bind; [exact Hb|]. simpl. eapply runs_tau; [done|exact Hi].
Qed.

Lemma runs_iter_exit {I R} cb n (body : I -> itree (goE T) (I + R)) i w r w1 tr :
  runs cb n (body i) w (inr r) w1 tr ->
  runs cb n (ITree.iter body i) w r w1 tr.
Proof.
  intros Hb. eapply runs_observe; [symmetry; apply observe_iter|].
  rewrite <-(app_nil_r tr), <-(Nat.add_0_r n).
  eapply runs_bind; [exact Hb|]. by apply runs_ret.
Qed.

Lemma runs_call_pred {R} cb n v (k : bool -> itree (goE T) R) w b w1 r w2 tr :
  on_pred cb v w = (b, w1) ->
  runs cb n (k b) w1 r w2 tr ->
  runs cb (S n) (ITree.bind (pred_of_caller v) k) w r w2 (PredCall v b :: tr).
Proof.
  intros Hp Hr. apply (runs_bind cb 1 n _ k w b w1 [PredCall v b]); [|done].
  apply runs_trigger. simpl. by rewrite Hp.
Qed.

Lemma runs_call_yield {R} cb n v (k : bool -> itree (goE T) R) w b w1 r w2 tr :
  on_yield cb v w = (b, w1) ->
  runs cb n (k b) w1 r w2 tr ->
  runs cb (S n) (ITree.bind (yield_to_driver v) k) w r w2 (YieldCall v b :: tr).
Proof.
  intros Hy Hr. apply (runs_bind cb 1 n _ k w b w1 [YieldCall v b]); [|done].
  apply runs_trigger. simpl. by rewrite Hy.
Qed.

Lemma run_observe {R} cb fuel (t1 t2 : itree (goE T) R) w :
  observe t1 = observe t2 -> run cb fuel t1 w = run cb fuel t2 w.
Proof. intros Heq. destruct fuel; [done|]. simpl. by rewrite Heq. Qed.

(** Resuming, like running, only looks at a tree through [observe]. *)
Lemma resume_observe cb fuel (t1 t2 : itree (goE T) unit) w :
  observe t1 = observe t2 -> resume cb fuel t1 w = resume cb fuel t2 w.
Proof. intros Heq. destruct fuel; [done|]. simpl. by rewrite Heq. Qed.

Lemma resume_call_pred cb fuel v (k : bool -> itree (goE T) unit) w b w1 :
  on_pred cb v w = (b, w1) ->
  resume cb (S fuel) (ITree.bind (pred_of_caller v) k) w = resume cb fuel (k b) w1.
Proof. intros Hp. simpl. rewrite Hp. by apply resume_observe. Qed.

Lemma resume_call_yield cb fuel v (k : bool -> itree (goE T) unit) w :
  resume cb (S fuel) (ITree.bind (yield_to_driver v) k) w =
    Done (Some (v, fun b => ITree.bind (Ret b) k), w).
Proof. done. Qed.

(** More fuel never changes what a run returns. *)
Lemma run_mono {R} cb fuel fuel' (t : itree (goE T) R) w x :
  run cb fuel t w = Done x -> fuel <= fuel' -> run cb fuel' t w = Done x.
Proof.
  destruct x as [[r w'] tr]. intros Hrun Hle.
  destruct (run_runs _ _ _ _ _ _ _ Hrun) as (n & Hn & Hr).
  eapply runs_run; [exact Hr|lia].
Qed.

End RunFacts.

(** ** The stack and its cursors *)

Section StackFacts.
Context {T U : Type} `{Zero T}.
Implicit Types (w : world T U) (s c : loc) (vs : list T).

Lemma chain_mono (h h' : gmap loc (node T)) p vs :
  h ⊆ h' -> chain h p vs -> chain h' p vs.
Proof.
  intros Hsub. induction 1 as [|p v nx vs Hp _ IH]; [constructor|].
  econstructor; [|exact IH]. by eapply lookup_weaken.
Qed.

Lemma chain_functional (h : gmap loc (node T)) p vs1 vs2 :
  chain h p vs1 -> chain h p vs2 -> vs1 = vs2.
Proof.
  intros H1. revert vs2. induction H1 as [|p v nx vs Hp _ IH]; intros vs2 H2.
  - by inversion H2.
  - inversion H2 as [|p' v' nx' vs' Hp' Hc']; subst.
    rewrite Hp in Hp'. injection Hp' as <- <-. f_equal. by apply IH.
Qed.

Lemma fresh_node_None w : nodes w !! fresh (dom (nodes w)) = None.
Proof. apply not_elem_of_dom, is_fresh. Qed.

Lemma Push_Done w s st v :
  stacks w !! s = Some st ->
  Push s v w =
    Done (tt, World (<[fresh (dom (nodes w)) := Node v (head st)]> (nodes w))
                    (<[s := MkStack (Some (fresh (dom (nodes w))))]> (stacks w))
                    (iters w) (ext w)).
Proof. intros Hs. unfold Push. by rewrite Hs. Qed.

Lemma Items_Done w s st :
  stacks w !! s = Some st ->
  Items s w =
    Done (fresh (dom (iters w)),
          World (nodes w) (stacks w)
                (<[fresh (dom (iters w)) := MkStackIterator (head st)]> (iters w))
                (ext w)).
Proof. intros Hs. unfold Items. by rewrite Hs. Qed.

Lemma pop_n_S s k w :
  pop_n s (S k) w =
    match Pop s w with
    | Done (r, w1) =>
        match pop_n s k w1 with
        | Done (rs, w2) => Done (r :: rs, w2)
        | Panic => Panic
        | OutOfFuel => OutOfFuel
        end
    | Panic => Panic
    | OutOfFuel => OutOfFuel
    end.
Proof. reflexivity. Qed.

Lemma pop_n_snoc s k w rs w1 r w2 :
  pop_n s k w = Done (rs, w1) ->
  Pop s w1 = Done (r, w2) ->
  pop_n s (S k) w = Done (rs ++ [r], w2).
Proof.
  revert w rs. induction k as [|k IH]; intros w rs.
  - simpl. by intros [= <- <-] ->.
  - rewrite (pop_n_S s k w), (pop_n_S s (S k) w).
    destruct (Pop s w) as [[r0 w0]| |]; try done.
    destruct (pop_n s k w0) as [[rs0 w3]| |] eqn:Hk0; try done.
    intros [= <- <-] Hp. by rewrite (IH _ _ Hk0 Hp).
Qed.

(** Pushing [vs] and popping as many gives [vs] back, last pushed first,
    and leaves the stack as it was; nothing else in the memory changes but
    the nodes allocated. *)
Lemma push_all_pop_n w s st vs :
  stacks w !! s = Some st ->
  exists w1 w2,
    push_all s vs w = Done w1 /\
    pop_n s (length vs) w1 = Done ((fun v => (v, None)) <$> rev vs, w2) /\
    stacks w2 !! s = Some st /\
    nodes w ⊆ nodes w2 /\ iters w2 = iters w /\ ext w2 = ext w.
Proof.
  revert w st. induction vs as [|v vs IH]; intros w st Hs.
  - exists w, w. by repeat split.
  - simpl push_all. rewrite (Push_Done _ _ _ _ Hs).
    set (p := fresh (dom (nodes w))).
    set (w0 := World _ _ _ _).
    destruct (IH w0 (MkStack (Some p))) as (w1 & w2 & Hpush & Hpop & Hs2 & Hsub & Hit & Hext).
    { unfold w0. simpl. by rewrite lookup_insert_eq. }
    assert (Hp : nodes w2 !! p = Some (Node v (head st))).
    { eapply lookup_weaken; [|exact Hsub]. unfold w0. simpl. by rewrite lookup_insert_eq. }
    eexists w1, _. split; [exact Hpush|]. split.
    + simpl length. simpl rev. rewrite fmap_app. simpl.
      eapply pop_n_snoc; [exact Hpop|].
      unfold Pop. rewrite Hs2. simpl. rewrite Hp. simpl. reflexivity.
    + simpl. rewrite lookup_insert_eq. destruct st as [hd]. simpl.
      repeat split; [|done..].
      etrans; [|exact Hsub]. unfold w0. simpl.
      apply insert_subseteq, fresh_node_None.
Qed.

Lemma Pop_empty w s : is_empty w s -> Pop s w = Done ((zero, Some ErrEmpty), w).
Proof. unfold is_empty, Pop. by intros ->. Qed.

Lemma Pop_error_inv w s v e w' :
  Pop s w = Done ((v, Some e), w') ->
  is_empty w s /\ e = ErrEmpty /\ v = zero /\ w' = w.
Proof.
  unfold Pop, is_empty.
  destruct (stacks w !! s) as [[[p|]]|]; simpl; try done.
  - destruct (nodes w !! p); [intros [=]|done].
  - by intros [= <- <- <-].
Qed.

Lemma drain_chain c p vs : forall w fuel,
  iters w !! c = Some (MkStackIterator p) ->
  chain (nodes w) p vs ->
  length vs < fuel ->
  drain fuel c w =
    Done (vs, World (nodes w) (stacks w) (<[c := MkStackIterator None]> (iters w)) (ext w)).
Proof.
  revert p. induction vs as [|v vs IH]; intros p w fuel Hc Hch Hf.
  - inversion Hch; subst. destruct fuel as [|fuel]; [lia|].
    simpl. unfold Next. rewrite Hc. simpl.
    rewrite (insert_id _ _ _ Hc). by destruct w.
  - inversion Hch as [|p' v' nx vs' Hp Hch']; subst.
    destruct fuel as [|fuel]; [simpl in Hf; lia|].
    simpl. unfold Next. rewrite Hc. simpl. rewrite Hp. simpl.
    rewrite (IH nx); simpl.
    + by rewrite insert_insert_eq.
    + by rewrite lookup_insert_eq.
    + done.
    + simpl in Hf. lia.
Qed.

(** Pushes and pops leave every node where it was, touch no cursor, and
    leave the stack with a chain of its own. *)
Lemma mutate_frame s ops : forall w st vs,
  stacks w !! s = Some st ->
  chain (nodes w) (head st) vs ->
  exists w' st' vs',
    mutate s ops w = Done w' /\
    nodes w ⊆ nodes w' /\ iters w' = iters w /\
    stacks w' !! s = Some st' /\ chain (nodes w') (head st') vs'.
Proof.
  induction ops as [|op ops IH]; intros w st vs Hs Hch.
  - exists w, st, vs. by repeat split.
  - destruct op as [v|].
    + simpl. rewrite (Push_Done _ _ _ _ Hs).
      set (p := fresh (dom (nodes w))). set (w0 := World _ _ _ _).
      assert (Hsub : nodes w ⊆ nodes w0).
      { unfold w0. simpl. apply insert_subseteq, fresh_node_None. }
      destruct (IH w0 (MkStack (Some p)) (v :: vs)) as (w' & st' & vs' & Hm & Hsub' & Hit & Hs' & Hch').
      { unfold w0. simpl. by rewrite lookup_insert_eq. }
      { simpl. econstructor.
        - unfold w0. simpl. by rewrite lookup_insert_eq.
        - eapply chain_mono; [exact Hsub|exact Hch]. }
      exists w', st', vs'. repeat split; try done. by etrans.
    + simpl. unfold Pop. rewrite Hs.
      destruct st as [hd]. simpl in Hch |- *.
      inversion Hch as [|p v nx vs0 Hp Hch0]; subst.
      * destruct (IH w (MkStack None) [] Hs) as (w' & st' & vs' & ?); [done|].
        by exists w', st', vs'.
      * rewrite Hp. simpl. set (w0 := World _ _ _ _).
        destruct (IH w0 (MkStack nx) vs0) as (w' & st' & vs' & Hm & Hsub' & Hit & Hs' & Hch').
        { unfold w0. simpl. by rewrite lookup_insert_eq. }
        { done. }
        by exists w', st', vs'.
Qed.

(** C2 — LIFO.  For every run of pushes [v1, ..., vn] onto a stack (empty
    or not) with no pop in between, the [n] pops that follow all succeed
    (nil error) and return [vn, ..., v1]: each returns the most recently
    pushed element not yet popped.  The stack is then as it was before the
    pushes. *)
Theorem push_pop_LIFO w s st vs :
  stacks w !! s = Some st ->
  exists w1 w2,
    push_all s vs w = Done w1 /\
    pop_n s (length vs) w1 = Done ((fun v => (v, None)) <$> rev vs, w2) /\
    stacks w2 !! s = Some st.
Proof.
  intros Hs. destruct (push_all_pop_n w s st vs Hs) as (w1 & w2 & ? & ? & ? & _).
  by exists w1, w2.
Qed.

(** C4 — Empty pop.  A stack with no elements is a fresh one or one drained
    by pops; on such a stack every [Pop], however many are made, returns
    [ErrEmpty] with the zero value, never an element pushed earlier, and
    changes nothing.  It is the only error: a [Pop] that returns an error
    was made on an empty stack and the error is [ErrEmpty], and on a stack
    that has elements [Pop] returns the first of them with a nil error and
    [Push] returns.  ([Push], [Items] and [Next] have no error result.) *)
Theorem Pop_empty_ErrEmpty :
  (forall w, is_empty (NewStack w).2 (NewStack w).1) /\
  (forall w s vs, is_empty w s ->
     exists w1 w2 rs,
       push_all s vs w = Done w1 /\ pop_n s (length vs) w1 = Done (rs, w2) /\
       is_empty w2 s) /\
  (forall w s k, is_empty w s ->
     pop_n s k w = Done (replicate k (zero, Some ErrEmpty), w)) /\
  (forall w s v e w', Pop s w = Done ((v, Some e), w') ->
     is_empty w s /\ e = ErrEmpty /\ v = zero /\ w' = w) /\
  (forall w s st v vs,
     stacks w !! s = Some st -> chain (nodes w) (head st) (v :: vs) ->
     (exists w', Pop s w = Done ((v, None), w')) /\
     (forall x, exists w', Push s x w = Done (tt, w'))).
Proof.
  split; [|split; [|split; [|split]]].
  - intros w. unfold is_empty, NewStack. simpl. by rewrite lookup_insert_eq.
  - intros w s vs Hs.
    destruct (push_all_pop_n w s _ vs Hs) as (w1 & w2 & ? & ? & ? & _).
    by exists w1, w2, ((fun v => (v, None)) <$> rev vs).
  - intros w s k Hs. induction k as [|k IH]; [done|].
    simpl. by rewrite (Pop_empty _ _ Hs), IH.
  - intros w s v e w' HP. by apply Pop_error_inv.
  - intros w s st v vs Hs Hch. split.
    + inversion Hch as [|p v' nx vs' Hp Hch' Hhd]; subst.
      unfold Pop. rewrite Hs, <-Hhd, Hp. simpl. by eexists.
    + intros x. rewrite (Push_Done _ _ _ _ Hs). by eexists.
Qed.

(** C9 — Pop is atomic on failure.  On an empty stack [Pop] returns the zero
    value with [ErrEmpty] and leaves the whole memory, the head pointer of
    the stack included, exactly as it was. *)
Theorem Pop_empty_atomic w s st :
  stacks w !! s = Some st ->
  head st = None ->
  exists w',
    Pop s w = Done ((zero, Some ErrEmpty), w') /\ w' = w /\ stacks w' !! s = Some st.
Proof.
  intros Hs Hhd. exists w. unfold Pop. by rewrite Hs, Hhd.
Qed.

(** C5 — Cursor independence.  Two cursors created from the same state of a
    stack whose elements are [vs] are distinct objects; draining the first
    and then the second yields [vs] both times, as draining the second alone
    does; and after any pushes and pops on the stack made once the cursors
    exist, each cursor still yields [vs]: it sees the chain from the node it
    started at, and no later push. *)
Theorem cursors_independent w s st vs :
  stacks w !! s = Some st ->
  chain (nodes w) (head st) vs ->
  exists c1 c2 w1 w2,
    Items s w = Done (c1, w1) /\ Items s w1 = Done (c2, w2) /\ c1 <> c2 /\
    forall fuel, length vs < fuel ->
      (exists w3 w4,
         drain fuel c1 w2 = Done (vs, w3) /\ drain fuel c2 w3 = Done (vs, w4)) /\
      (exists w3, drain fuel c2 w2 = Done (vs, w3)) /\
      (forall ops, exists w3 w4 w5,
         mutate s ops w2 = Done w3 /\
         drain fuel c1 w3 = Done (vs, w4) /\ drain fuel c2 w4 = Done (vs, w5)).
Proof.
  intros Hs Hch.
  set (c1 := fresh (dom (iters w))).
  set (w1 := World (nodes w) (stacks w)
                   (<[c1 := MkStackIterator (head st)]> (iters w)) (ext w)).
  set (c2 := fresh (dom (iters w1))).
  set (w2 := World (nodes w1) (stacks w1)
                   (<[c2 := MkStackIterator (head st)]> (iters w1)) (ext w1)).
  assert (Hne : c1 <> c2).
  { intros Heq. pose proof (is_fresh (dom (iters w1))) as Hfr.
    fold c2 in Hfr. rewrite <-Heq in Hfr. apply Hfr.
    unfold w1. simpl. rewrite dom_insert_L. set_solver. }
  assert (Hc1 : iters w2 !! c1 = Some (MkStackIterator (head st))).
  { unfold w2, w1. simpl. rewrite lookup_insert_ne by done. by rewrite lookup_insert_eq. }
  assert (Hc2 : iters w2 !! c2 = Some (MkStackIterator (head st))).
  { unfold w2. simpl. by rewrite lookup_insert_eq. }
  exists c1, c2, w1, w2.
  split; [by rewrite (Items_Done w s st Hs)|].
  split; [by rewrite (Items_Done w1 s st Hs)|].
  split; [done|]. intros fuel Hfuel. split; [|split].
  - rewrite (drain_chain c1 (head st) vs w2) by done.
    eexists _, _. split; [done|].
    apply (drain_chain c2 (head st) vs); [|done..].
    simpl. by rewrite lookup_insert_ne.
  - eexists. by apply (drain_chain c2 (head st) vs).
  - intros ops.
    destruct (mutate_frame s ops w2 st vs) as (w3 & st' & vs' & Hm & Hsub & Hit & _); [done..|].
    assert (Hch3 : chain (nodes w3) (head st) vs) by (by eapply chain_mono).
    exists w3. eexists _, _. split; [done|].
    rewrite (drain_chain c1 (head st) vs w3); [|by rewrite Hit|done..].
    split; [done|].
    apply (drain_chain c2 (head st) vs); [|done..].
    simpl. rewrite lookup_insert_ne by done. by rewrite Hit.
Qed.

End StackFacts.

(** ** The sequence of a stack *)

Section IterFacts.
Context {T U : Type} `{Zero T}.
Implicit Types (cb : callbacks T U) (w : world T U) (vs : list T).

Lemma protocol_calls (yield : T -> world T U -> bool * world T U) vs w :
  let tr := (protocol yield vs w).2 in
  pred_args tr = [] /\
  yielded tr `prefix_of` vs /\
  (forall i, yield_answers tr !! i = Some false -> S i = length (yield_answers tr)) /\
  (false ∉ yield_answers tr -> yielded tr = vs).
Proof.
  revert w. induction vs as [|v vs IH]; intros w; simpl.
  - repeat split; done.
  - destruct (yield v w) as [[] w1].
    + specialize (IH w1). destruct (protocol yield vs w1) as [w2 tr]. simpl in *.
      destruct IH as (Hp & Hpre & Hlast & Hall).
      repeat split.
      * done.
      * by apply prefix_cons.
      * intros [|i]; simpl; [done|]. intros Hi. f_equal. by apply Hlast.
      * intros Hno. f_equal. apply Hall. intros Hin. apply Hno. by right.
    + simpl. repeat split.
      * apply prefix_cons, prefix_nil.
      * intros [|i]; simpl; [done|]. by rewrite lookup_nil.
      * intros Hno. exfalso. apply Hno. by left.
Qed.

Lemma Iter_loop_runs cb :
  (forall v w0, nodes w0 ⊆ nodes (on_yield cb v w0).2) ->
  forall vs p w,
    chain (nodes w) p vs ->
    exists n, n <= 4 * length vs /\
      runs cb n (ITree.iter (Iter_step yield_to_driver) p) w tt
           (protocol (on_yield cb) vs w).1 (protocol (on_yield cb) vs w).2.
Proof.
  intros Hmono vs. induction vs as [|v vs IH]; intros p w Hch.
  - inversion Hch; subst. exists 0. split; [done|].
    apply runs_iter_exit. simpl. by apply runs_ret.
  - inversion Hch as [|p' v' nx vs' Hp Hch']; subst. simpl protocol.
    destruct (on_yield cb v w) as [ok w1] eqn:Hy.
    assert (Hsub : nodes w ⊆ nodes w1).
    { specialize (Hmono v w). by rewrite Hy in Hmono. }
    assert (Hval : runs cb 1 (ITree.trigger (GetValue p')) w v w []).
    { apply runs_trigger. simpl. by rewrite Hp. }
    assert (Hyield : runs cb 1 (yield_to_driver v) w ok w1 [YieldCall v ok]).
    { apply runs_trigger. simpl. by rewrite Hy. }
    destruct ok.
    + destruct (IH nx w1) as (n & Hn & Hr); [by eapply chain_mono|].
      destruct (protocol (on_yield cb) vs w1) as [w2 tr]. simpl in *.
      exists (3 + S n). split; [lia|].
      change (YieldCall v true :: tr) with (([] ++ [YieldCall v true] ++ []) ++ tr).
      eapply runs_iter_again; [|exact Hr].
      unfold Iter_step, mbind, itree_mbind.
      change 3 with (1 + (1 + 1)).
      eapply runs_bind; [exact Hval|].
      eapply runs_bind; [exact Hyield|]. simpl.
      rewrite <-(app_nil_r []). change 1 with (1 + 0).
      eapply runs_bind; [|by apply runs_ret].
      apply runs_trigger. simpl.
      by rewrite (lookup_weaken _ _ _ _ Hp Hsub).
    + simpl. exists 2. split; [lia|].
      apply runs_iter_exit.
      unfold Iter_step, mbind, itree_mbind.
      change [YieldCall v false] with ([] ++ [YieldCall v false] ++ []).
      change 2 with (1 + (1 + 0)).
      eapply runs_bind; [exact Hval|].
      eapply runs_bind; [exact Hyield|]. simpl. by apply runs_ret.
Qed.

(** Whatever the consumer does to the memory, nodes included, a traversal
    that returns has called nothing but the consumer and has made no call
    after an answer that is false. *)
Lemma Iter_loop_stops cb fuel : forall p w w' tr,
  run cb fuel (ITree.iter (Iter_step yield_to_driver) p) w = Done (tt, w', tr) ->
  pred_args tr = [] /\
  (forall i, yield_answers tr !! i = Some false -> S i = length (yield_answers tr)).
Proof.
  induction fuel as [fuel IH] using lt_wf_ind. intros p w w' tr Hrun.
  destruct fuel as [|f1]; [done|]. destruct p as [p|]; simpl in Hrun.
  - destruct (nodes w !! p) as [nd|] eqn:Hp; [|done].
    destruct f1 as [|f2]; [done|]. simpl in Hrun.
    destruct (on_yield cb (value nd) w) as [ok w1].
    destruct f2 as [|f3]; [by destruct ok|]. destruct ok; simpl in Hrun.
    + destruct (nodes w1 !! p) as [nd1|] eqn:Hp1; [|done].
      destruct f3 as [|f4]; [done|]. simpl in Hrun.
      destruct (run cb f4 _ w1) as [[[[] w2] tr2]| |] eqn:Hrec; try done.
      injection Hrun as <- <-.
      destruct (IH f4 ltac:(lia) _ _ _ _ Hrec) as [Hpred Hlast].
      split; [done|].
      intros [|i]; simpl; [done|]. intros Hi. f_equal. by apply Hlast.
    + injection Hrun as <- <-. split; [done|].
      by intros [|i].
  - injection Hrun as <- <-. split; [done|]. by intros i.
Qed.

(** C8 — Protocol fairness of the stack's producer.  For every stack, with
    elements [vs] from head to tail, and every consumer that leaves the
    existing nodes in place (whatever else it does to the memory, pushes and
    pops on this stack included), the function returned by [Iter] returns,
    having called nothing but the consumer: once per element, in traversal
    order from the head, up to and including the first element on which the
    consumer answered false, and never after it.  When the consumer never
    answers false, it is called on all of [vs].  And for every consumer and
    memory whatsoever, a traversal that returns has made no call after an
    answer that is false. *)
Theorem Iter_protocol cb w s st vs :
  stacks w !! s = Some st ->
  chain (nodes w) (head st) vs ->
  (forall v w0, nodes w0 ⊆ nodes (on_yield cb v w0).2) ->
  (exists w' tr,
     (forall fuel, 4 * length vs + 1 < fuel ->
        run cb fuel (Iter s yield_to_driver) w = Done (tt, w', tr)) /\
     (w', tr) = protocol (on_yield cb) vs w /\
     pred_args tr = [] /\
     yielded tr `prefix_of` vs /\
     (forall i, yield_answers tr !! i = Some false -> S i = length (yield_answers tr)) /\
     (false ∉ yield_answers tr -> yielded tr = vs)) /\
  (forall cb' fuel w0 w1 tr1,
     run cb' fuel (Iter s yield_to_driver) w0 = Done (tt, w1, tr1) ->
     pred_args tr1 = [] /\
     (forall i, yield_answers tr1 !! i = Some false -> S i = length (yield_answers tr1))).
Proof.
  intros Hs Hch Hmono. split.
  - destruct (Iter_loop_runs cb Hmono vs (head st) w Hch) as (n & Hn & Hr).
    pose proof (protocol_calls (on_yield cb) vs w) as Hcalls.
    destruct (protocol (on_yield cb) vs w) as [w' tr]. simpl in *.
    exists w', tr. split; [|by split].
    intros fuel Hfuel. eapply (runs_run cb (1 + n)); [|lia].
    unfold Iter, mbind, itree_mbind.
    change tr with ([] ++ tr).
    eapply runs_bind; [|exact Hr].
    apply runs_trigger. simpl. by rewrite Hs.
  - intros cb' [|fuel] w0 w1 tr1; [done|]. simpl.
    destruct (stacks w0 !! s) as [st0|]; [|done].
    rewrite (run_observe cb' fuel _ (ITree.iter (Iter_step yield_to_driver) (head st0)))
      by done.
    destruct (run cb' fuel _ w0) as [[[[] w2] tr2]| |] eqn:Hrun; try done.
    intros [= <- <-]. by apply (Iter_loop_stops cb' fuel _ _ _ _ Hrun).
Qed.

End IterFacts.

(** ** Filter *)

Section FilterFacts.
Context {T U : Type} `{Zero T}.
Implicit Types (cb : callbacks T U) (w : world T U) (values : list T).

Local Abbreviation Floop := (Filter_loop pred_of_caller yield_to_driver).

(** The three ways through one turn of the loop. *)
Lemma Filter_loop_skip cb n v rest w w1 w2 tr :
  on_pred cb v w = (false, w1) ->
  runs cb n (Floop rest) w1 tt w2 tr ->
  runs cb (S n) (Floop (v :: rest)) w tt w2 (PredCall v false :: tr).
Proof.
  intros Hp Hr. eapply (runs_call_pred cb n v); [exact Hp|exact Hr].
Qed.

Lemma Filter_loop_emit cb n v rest w w1 w2 w3 tr :
  on_pred cb v w = (true, w1) ->
  on_yield cb v w1 = (true, w2) ->
  runs cb n (Floop rest) w2 tt w3 tr ->
  runs cb (S (S n)) (Floop (v :: rest)) w tt w3
       (PredCall v true :: YieldCall v true :: tr).
Proof.
  intros Hp Hy Hr. eapply (runs_call_pred cb (S n) v); [exact Hp|].
  eapply (runs_call_yield cb n v); [exact Hy|exact Hr].
Qed.

Lemma Filter_loop_break cb v rest w w1 w2 :
  on_pred cb v w = (true, w1) ->
  on_yield cb v w1 = (false, w2) ->
  runs cb 2 (Floop (v :: rest)) w tt w2 [PredCall v true; YieldCall v false].
Proof.
  intros Hp Hy. eapply (runs_call_pred cb 1 v); [exact Hp|].
  eapply (runs_call_yield cb 0 v); [exact Hy|]. by apply runs_ret.
Qed.

(** Whatever the callbacks do, [Filter] returns, and the predicate has been
    called on an initial part of the slice, element by element. *)
Lemma Filter_loop_returns cb values : forall w,
  exists n w' tr,
    n <= 2 * length values /\
    runs cb n (Floop values) w tt w' tr /\
    pred_args tr `prefix_of` values.
Proof.
  induction values as [|v rest IH]; intros w.
  - exists 0, w, []. repeat split; [done|by apply runs_ret|done].
  - destruct (on_pred cb v w) as [[] w1] eqn:Hp.
    + destruct (on_yield cb v w1) as [[] w2] eqn:Hy.
      * destruct (IH w2) as (n & w' & tr & Hn & Hr & Hpre).
        exists (S (S n)), w', (PredCall v true :: YieldCall v true :: tr).
        split; [simpl; lia|]. split; [by eapply Filter_loop_emit|].
        simpl. by apply prefix_cons.
      * exists 2, w2, [PredCall v true; YieldCall v false].
        split; [simpl; lia|]. split; [by eapply Filter_loop_break|].
        simpl. apply prefix_cons, prefix_nil.
    + destruct (IH w1) as (n & w' & tr & Hn & Hr & Hpre).
      exists (S n), w', (PredCall v false :: tr).
      split; [simpl; lia|]. split; [by eapply Filter_loop_skip|].
      simpl. by apply prefix_cons.
Qed.

(** With a pure predicate and a consumer that always continues. *)
Lemma Filter_loop_all (P : T -> bool) (g : T -> world T U -> world T U) values :
  forall w,
  exists n tr,
    n <= 2 * length values /\
    runs (Callbacks (fun v w => (true, g v w)) (fun v w => (P v, w))) n
         (Floop values) w tt (foldl (fun w v => g v w) w (List.filter P values)) tr /\
    yielded tr = List.filter P values /\
    pred_args tr = values.
Proof.
  induction values as [|v rest IH]; intros w.
  - exists 0, []. repeat split; [done|by apply runs_ret].
  - simpl List.filter. destruct (P v) eqn:HP.
    + destruct (IH (g v w)) as (n & tr & Hn & Hr & Hy & Hp).
      exists (S (S n)), (PredCall v true :: YieldCall v true :: tr).
      split; [simpl; lia|]. split.
      * eapply Filter_loop_emit; [simpl; by rewrite HP|done|exact Hr].
      * simpl. by rewrite Hy, Hp.
    + destruct (IH w) as (n & tr & Hn & Hr & Hy & Hp).
      exists (S n), (PredCall v false :: tr).
      split; [simpl; lia|]. split.
      * eapply Filter_loop_skip; [simpl; by rewrite HP|exact Hr].
      * simpl. by rewrite Hy, Hp.
Qed.

Lemma length_filter_count (P : T -> bool) values :
  length (List.filter P values) = sum_list_with (fun v => if P v then 1 else 0) values.
Proof.
  induction values as [|v rest IH]; [done|]. simpl.
  destruct (P v); simpl; by rewrite IH.
Qed.

(** C3 — Filter order and subset.  For every slice [values] and predicate
    [P], [Filter(values, P)] ranged over by a loop that never breaks (and
    does anything else to the memory) returns, having passed to the loop
    body exactly the elements of [values] on which [P] is true, in their
    order in [values], as many as [values] has elements satisfying [P], and
    having called [P] exactly once on each element of [values], in order.
    With any callbacks at all, the arguments [Filter] passed to the
    predicate are an initial part of [values]: never one element twice. *)
Theorem Filter_emits_matching (P : T -> bool) (g : T -> world T U -> world T U) values w :
  (exists w' tr,
     (forall fuel, 2 * length values < fuel ->
        run (Callbacks (fun v w => (true, g v w)) (fun v w => (P v, w))) fuel
            (Filter values pred_of_caller yield_to_driver) w = Done (tt, w', tr)) /\
     yielded tr = List.filter P values /\
     length (yielded tr) = sum_list_with (fun v => if P v then 1 else 0) values /\
     pred_args tr = values) /\
  (forall cb fuel w1 tr1,
     run cb fuel (Filter values pred_of_caller yield_to_driver) w = Done (tt, w1, tr1) ->
     pred_args tr1 `prefix_of` values).
Proof.
  split.
  - destruct (Filter_loop_all P g values w) as (n & tr & Hn & Hr & Hy & Hp).
    eexists _, tr. split; [|split; [done|split; [|done]]].
    + intros fuel Hfuel. eapply runs_run; [exact Hr|lia].
    + by rewrite Hy, length_filter_count.
  - intros cb fuel w1 tr1 Hrun.
    destruct (Filter_loop_returns cb values w) as (n & w' & tr & Hn & Hr & Hpre).
    pose proof (runs_run _ _ _ _ _ _ _ Hr (S n + fuel) ltac:(lia)) as Hrun'.
    unfold Filter in Hrun.
    rewrite (run_mono _ _ (S n + fuel) _ _ _ Hrun) in Hrun' by lia.
    by injection Hrun' as -> ->.
Qed.

(** C7 — Filter laziness.  On a slice of any length whose first element
    satisfying [P] is [x], after the elements [pre] and before the elements
    [suf], a consumer that stops at the first match makes [Filter] return
    after calling [P] on the elements of [pre] and on [x] and the consumer on
    [x], and nothing else: no element of [suf] is evaluated, and the number
    of steps does not depend on [suf].  Nothing is evaluated before the
    sequence is driven, and pulling one element through [iter.Pull] takes
    the same number of steps whatever [suf] is. *)
Theorem Filter_lazy (P : T -> bool) (y : T -> world T U -> bool * world T U)
    pre x suf w :
  Forall (fun v => P v = false) pre ->
  P x = true ->
  (y x w).1 = false ->
  let cb := Callbacks y (fun v w => (P v, w)) in
  (forall fuel, length pre + 2 < fuel ->
     run cb fuel (Filter (pre ++ x :: suf) pred_of_caller yield_to_driver) w =
       Done (tt, (y x w).2,
             ((fun v => PredCall v false) <$> pre) ++ [PredCall x true; YieldCall x false])) /\
  (forall fuel, length pre + 1 < fuel ->
     exists k,
       pull cb fuel (Pull (Filter (pre ++ x :: suf) pred_of_caller)) w =
         Done ((x, true), Suspended k, w)).
Proof.
  intros Hpre HP Hy cb. split.
  - intros fuel Hfuel. eapply (runs_run cb (length pre + 2)); [|lia].
    unfold Filter. clear Hfuel.
    induction Hpre as [|v pre Hv _ IH]; simpl app; simpl length.
    + destruct (y x w) as [ok w1] eqn:Hyx. simpl in Hy. subst ok.
      eapply Filter_loop_break; [simpl; by rewrite HP|done].
    + simpl fmap. eapply Filter_loop_skip; [simpl; by rewrite Hv|exact IH].
  - intros fuel Hfuel. unfold pull, Pull, pending, Filter.
    revert fuel Hfuel.
    induction Hpre as [|v pre Hv _ IH]; intros [|fuel] Hfuel;
      try (simpl in Hfuel; lia); simpl app;
      cbn [Filter_loop]; unfold mbind, itree_mbind.
    + rewrite (resume_call_pred cb fuel x _ w true w) by (simpl; by rewrite HP).
      destruct fuel as [|fuel]; [simpl in Hfuel; lia|].
      simpl negb. cbv iota. rewrite resume_call_yield. by eexists.
    + rewrite (resume_call_pred cb fuel v _ w false w) by (simpl; by rewrite Hv).
      apply IH. simpl in Hfuel. lia.
Qed.

End FilterFacts.

(** ** Max *)

Section MaxFacts.
Context {T U : Type} `{Zero T} `{Ordered T} `{Fmt T}.
Implicit Types (cb : callbacks T U) (w : world T U) (vs : list T).

(** A step of a run that is not a [yield]: resuming goes through it. *)
Ltac silent_step Hobs Hh IH Heq :=
  injection Hh as <- <- <-; simpl;
  match goal with
  | |- context [yielded ?tr] =>
      destruct (yielded tr) as [|? ?];
        [ intros [|?] ?; [lia|]; simpl; rewrite Hobs; simpl; rewrite Heq;
          apply IH; lia
        | let Hres := fresh "Hres" in
          destruct IH as (n1 & n2 & k' & w1' & tr' & -> & Hres & ? & ?);
          exists (S n1), n2, k', w1', tr'; repeat split; [|done..];
          intros [|?] ?; [lia|]; simpl; rewrite Hobs; simpl; rewrite Heq;
          apply Hres; lia ]
  end.

(** A sequence that, ranged over to its end, passes [v :: vs] to the loop
    body, is suspended by [iter.Pull] at [v], and what is left of it passes
    [vs]; one that passes nothing returns when resumed. *)
Lemma resume_of_runs cb n (t : itree (goE T) unit) w w' tr :
  runs (to_the_end cb) n t w tt w' tr ->
  match yielded tr with
  | [] => forall fuel, n < fuel -> resume cb fuel t w = Done (None, w')
  | v :: vs =>
      exists n1 n2 k w1 tr',
        n = n1 + S n2 /\
        (forall fuel, n1 < fuel -> resume cb fuel t w = Done (Some (v, k), w1)) /\
        runs (to_the_end cb) n2 (k true) w1 tt w' tr' /\
        yielded tr' = vs
  end.
Proof.
  induction 1 as [t [] w Hobs|n t t' w r w' tr Hobs _ IH
                 |n X e k t w x w1 c r w2 tr Hobs Hh Hr IH].
  - simpl. intros [|fuel] ?; [lia|]. simpl. by rewrite Hobs.
  - destruct (yielded tr) as [|v vs].
    + intros [|fuel] ?; [lia|]. simpl. rewrite Hobs. apply IH. lia.
    + destruct IH as (n1 & n2 & k & w1 & tr' & -> & Hres & Hk & Hy).
      exists (S n1), n2, k, w1, tr'. repeat split; [|done..].
      intros [|fuel] ?; [lia|]. simpl. rewrite Hobs. apply Hres. lia.
  - destruct e as [v|v|s|p|p]; simpl in Hh.
    + injection Hh as <- <- <-. simpl.
      exists 0, n, k, w, tr. repeat split; [|done].
      intros [|fuel] ?; [lia|]. simpl. by rewrite Hobs.
    + destruct (on_pred cb v w) as [b w0] eqn:Hp. silent_step Hobs Hh IH Hp.
    + destruct (stacks w !! s) as [st|] eqn:Hs; [|done]. silent_step Hobs Hh IH Hs.
    + destruct (nodes w !! p) as [nd|] eqn:Hs; [|done]. silent_step Hobs Hh IH Hs.
    + destruct (nodes w !! p) as [nd|] eqn:Hs; [|done]. silent_step Hobs Hh IH Hs.
Qed.

Lemma pull_pending cb fuel c t w :
  pending c = Some t ->
  pull cb fuel c w =
    match resume cb fuel t w with
    | Done (Some (v, k), w1) => Done ((v, true), Suspended k, w1)
    | Done (None, w1) => Done ((zero, false), Finished, w1)
    | Panic => Panic
    | OutOfFuel => OutOfFuel
    end.
Proof. unfold pull. by intros ->. Qed.

(** The loop of [Max] over what is left of a sequence. *)
Lemma max_loop_runs cb vs : forall n t c w w' tr m fuel,
  pending c = Some t ->
  runs (to_the_end cb) n t w tt w' tr ->
  yielded tr = vs ->
  n + length vs + 1 < fuel ->
  max_loop cb fuel m c w = Done (running_max m vs, Finished, w').
Proof.
  induction vs as [|v vs IH]; intros n t c w w' tr m [|fuel] Hc Hr Hy Hfuel;
    try lia; pose proof (resume_of_runs cb n t w w' tr Hr) as Hres;
    rewrite Hy in Hres; simpl; rewrite (pull_pending _ _ _ _ _ Hc).
  - rewrite Hres by lia. done.
  - destruct Hres as (n1 & n2 & k & w1 & tr' & -> & Hres & Hk & Hy').
    rewrite Hres by lia.
    apply (IH n2 (k true) _ w1 w' tr'); [done..|]. simpl in Hfuel. lia.
Qed.

Lemma gt_asym `{!TotalOrder T} (x y : T) : gt x y = true -> gt y x = false.
Proof.
  intros Hxy. destruct (gt y x) eqn:Hyx; [|done].
  by rewrite <-(gt_irrefl x), <-(gt_trans x y x Hxy Hyx).
Qed.

Lemma not_gt_trans `{!TotalOrder T} (x y z : T) :
  gt x y = false -> gt y z = false -> gt x z = false.
Proof.
  intros Hxy Hyz. destruct (gt x z) eqn:Hxz; [|done].
  destruct (gt_total x y) as [Hgt|[->|Hgt]]; [congruence..|].
  by rewrite <-Hyz, <-(gt_trans y x z Hgt Hxz).
Qed.

Lemma running_max_elem (m : T) vs : running_max m vs ∈ m :: vs.
Proof.
  revert m. induction vs as [|v vs IH]; intros m; [by left|].
  unfold running_max. simpl. fold (running_max (if gt v m then v else m) vs).
  specialize (IH (if gt v m then v else m)).
  apply elem_of_cons in IH as [->|IH].
  - destruct (gt v m); [right; left|left].
  - by do 2 right.
Qed.

Lemma running_max_upper `{!TotalOrder T} (m : T) vs x :
  x ∈ m :: vs -> gt x (running_max m vs) = false.
Proof.
  revert m x. induction vs as [|v vs IH]; intros m x Hx.
  - apply list_elem_of_singleton in Hx as ->. apply gt_irrefl.
  - unfold running_max. simpl. fold (running_max (if gt v m then v else m) vs).
    set (m' := if gt v m then v else m).
    assert (Hm : gt m m' = false).
    { unfold m'. destruct (gt v m) eqn:Hvm; [by apply gt_asym|apply gt_irrefl]. }
    assert (Hv : gt v m' = false).
    { unfold m'. destruct (gt v m) eqn:Hvm; [apply gt_irrefl|done]. }
    pose proof (IH m' m' ltac:(by left)) as Hm'.
    apply elem_of_cons in Hx as [->|Hx]; [by eapply not_gt_trans|].
    apply elem_of_cons in Hx as [->|Hx]; [by eapply not_gt_trans|].
    apply IH. by right.
Qed.

(** What [Max] does on a sequence that passes [vs] when ranged over. *)
Lemma Max_runs cb seq w n w' tr fuel :
  runs (to_the_end cb) n (seq yield_to_driver) w tt w' tr ->
  n + length (yielded tr) < fuel ->
  Max cb fuel seq w =
    match yielded tr with
    | [] => Done ((zero, Some (ErrorString "Max of empty sequence")), w')
    | v :: vs => Done ((running_max v vs, None), w')
    end.
Proof.
  intros Hr Hfuel. unfold Max.
  rewrite (pull_pending cb fuel (Pull seq) (seq yield_to_driver)) by done.
  pose proof (resume_of_runs cb n _ w w' tr Hr) as Hres.
  destruct (yielded tr) as [|v vs].
  - by rewrite Hres by lia.
  - destruct Hres as (n1 & n2 & k & w1 & tr' & -> & Hres & Hk & Hy').
    rewrite Hres by lia. simpl negb. cbv iota.
    rewrite (max_loop_runs cb vs n2 (k true) (Suspended k) w1 w' tr' v fuel); try done.
    simpl in Hfuel. lia.
Qed.

Lemma max_loop_agree cb fuel : forall m c w out,
  max_loop cb fuel m c w =
    match Bug.max_loop cb fuel m c w out with
    | Done (m', c', w', _) => Done (m', c', w')
    | Panic => Panic
    | OutOfFuel => OutOfFuel
    end.
Proof.
  induction fuel as [|fuel IH]; intros m c w out; [done|].
  simpl. destruct (pull cb fuel c w) as [[[[v []] c1] w1]| |]; auto.
Qed.

Lemma Bug_max_loop_out cb fuel : forall m c w out m' c' w' out',
  Bug.max_loop cb fuel m c w out = Done (m', c', w', out') -> out `prefix_of` out'.
Proof.
  induction fuel as [|fuel IH]; intros m c w out m' c' w' out'; [done|].
  simpl. destruct (pull cb fuel c w) as [[[[v []] c1] w1]| |]; try done.
  - intros Hl. apply IH in Hl. etrans; [|exact Hl]. by apply prefix_app_r.
  - by intros [= <- <- <- <-].
Qed.

(** The [Max] of stack.go is the [Max] of bug.go without its printing. *)
Lemma Max_erases_output cb fuel (seq : Seq T) w :
  Max cb fuel seq w =
    match Bug.Max cb fuel seq w with
    | Done (r, out, w') => Done (r, w')
    | Panic => Panic
    | OutOfFuel => OutOfFuel
    end.
Proof.
  unfold Max, Bug.Max.
  destruct (pull cb fuel (Pull seq) w) as [[[[m []] c1] w1]| |]; try done; simpl.
  - rewrite (max_loop_agree cb fuel m c1 w1 [">>> m: " +:+ sprint m]).
    destruct (Bug.max_loop cb fuel m c1 w1 _) as [[[[m' c2] w2] out]| |]; try done.
    unfold deferred. by destruct (stop cb fuel c2 w2) as [[]| |].
  - unfold deferred. by destruct (stop cb fuel c1 w1) as [[]| |].
Qed.

Lemma Bug_Max_of_Max cb fuel (seq : Seq T) w r w' :
  Max cb fuel seq w = Done (r, w') ->
  exists out, Bug.Max cb fuel seq w = Done (r, out, w').
Proof.
  rewrite Max_erases_output.
  destruct (Bug.Max cb fuel seq w) as [[[r0 out] w0]| |]; try done.
  intros [= <- <-]. by exists out.
Qed.

(** C1 — Max correctness.  For every sequence that passes at least one
    element when ranged over to its end, elements of a totally ordered type,
    [Max] (that of stack.go and that of bug.go) returns, with a nil error, an
    element of the sequence that no element of the sequence is greater
    than: its largest element.  It is the running maximum from the first
    element, and [Max] leaves the memory as the traversal does. *)
Theorem Max_largest `{!TotalOrder T} cb (seq : Seq T) w fuel0 w' tr :
  run (to_the_end cb) fuel0 (seq yield_to_driver) w = Done (tt, w', tr) ->
  yielded tr <> [] ->
  exists m,
    (forall fuel, fuel0 + length (yielded tr) <= fuel ->
       Max cb fuel seq w = Done ((m, None), w') /\
       exists out, Bug.Max cb fuel seq w = Done ((m, None), out, w')) /\
    m ∈ yielded tr /\
    (forall x, x ∈ yielded tr -> gt x m = false) /\
    m = running_max (List.hd zero (yielded tr)) (List.tl (yielded tr)).
Proof.
  intros Hrun Hne. destruct (run_runs _ _ _ _ _ _ _ Hrun) as (n & Hn & Hr).
  destruct (yielded tr) as [|v vs] eqn:Hy; [done|].
  exists (running_max v vs). split; [|split; [|split]].
  - intros fuel Hfuel.
    assert (HM : Max cb fuel seq w = Done ((running_max v vs, None), w')).
    { rewrite (Max_runs cb seq w n w' tr fuel Hr); rewrite Hy; [done|lia]. }
    split; [done|]. by apply Bug_Max_of_Max.
  - apply running_max_elem.
  - intros x. apply running_max_upper.
  - done.
Qed.

(** C6 — Max of an empty sequence.  For every sequence that passes nothing
    when ranged over (so that the first pull yields nothing), [Max] (that of
    stack.go and that of bug.go) returns the error "Max of empty sequence"
    and, with it, the zero value of the element type. *)
Theorem Max_empty cb (seq : Seq T) w fuel0 w' tr :
  run (to_the_end cb) fuel0 (seq yield_to_driver) w = Done (tt, w', tr) ->
  yielded tr = [] ->
  forall fuel, fuel0 <= fuel ->
    Max cb fuel seq w =
      Done ((zero, Some (ErrorString "Max of empty sequence")), w') /\
    exists out,
      Bug.Max cb fuel seq w =
        Done ((zero, Some (ErrorString "Max of empty sequence")), out, w').
Proof.
  intros Hrun Hy fuel Hfuel. destruct (run_runs _ _ _ _ _ _ _ Hrun) as (n & Hn & Hr).
  assert (HM : Max cb fuel seq w =
                 Done ((zero, Some (ErrorString "Max of empty sequence")), w')).
  { rewrite (Max_runs cb seq w n w' tr fuel Hr); rewrite Hy; [done|simpl; lia]. }
  split; [done|]. by apply Bug_Max_of_Max.
Qed.

(** C10 — The two [Max] are result-equivalent.  For every sequence, memory
    and bound on the steps, the [Max] of bug.go returns exactly when the
    [Max] of stack.go does, with the same value, the same error and the same
    memory, and panics or runs on exactly when it does; they differ in what
    is printed: bug.go's prints a line whenever it returns a maximum. *)
Theorem Max_variants_agree cb fuel (seq : Seq T) w :
  Max cb fuel seq w =
    match Bug.Max cb fuel seq w with
    | Done (r, out, w') => Done (r, w')
    | Panic => Panic
    | OutOfFuel => OutOfFuel
    end /\
  (forall m out w', Bug.Max cb fuel seq w = Done ((m, None), out, w') -> out <> []).
Proof.
  split; [apply Max_erases_output|].
  intros m' out w'. unfold Bug.Max.
  destruct (pull cb fuel (Pull seq) w) as [[[[m []] c1] w1]| |]; try done; simpl.
  - destruct (Bug.max_loop cb fuel m c1 w1 _) as [[[[m2 c2] w2] out2]| |] eqn:Hl;
      try done.
    apply Bug_max_loop_out in Hl as [rest ->].
    unfold deferred. destruct (stop cb fuel c2 w2) as [[]| |]; try done.
    by intros [= <- <- <-].
  - unfold deferred. by destruct (stop cb fuel c1 w1) as [[]| |].
Qed.

End MaxFacts.

(** ** The programs on their data *)

#[global] Instance Z_total_order : TotalOrder Z.
Proof.
  split; unfold gt, Z_ordered.
  - intros x. rewrite Z.gtb_ltb. apply Z.ltb_irrefl.
  - intros x y z. rewrite !Z.gtb_ltb, !Z.ltb_lt. lia.
  - intros x y. rewrite !Z.gtb_ltb, !Z.ltb_lt. lia.
Qed.

(** [main] of stack.go: three pops give 30, 20, 10, the fourth the error. *)
Example main_pops :
  exists w,
    pop_n main_stack.1 4 main_stack.2 =
      Done ([(30, None); (20, None); (10, None); (0, Some ErrEmpty)]%Z, w).
Proof. eexists. vm_compute. reflexivity. Qed.

(** [main] of stack.go: [Max(s.Iter())] is 30. *)
Example main_Max :
  Max (pure_callbacks (fun _ => true)) 20 (Iter main_stack.1) main_stack.2 =
    Done ((30%Z, None), main_stack.2).
Proof. vm_compute. reflexivity. Qed.

(** [main] of bug.go: [Max(Ints(3))] prints three lines and returns 2. *)
Example bug_main :
  Bug.Max (pure_callbacks (fun _ => true)) 10 (Bug.Ints 3) (empty_world tt) =
    Done ((2%Z, None), [">>> m: 0"; ">>> v: 1"; ">>> v: 2"], empty_world tt).
Proof. vm_compute. reflexivity. Qed.

(** [main] of the filter program: the event without a user is left out. *)
Example filter_main :
  option_map yielded
    (match run (pure_callbacks (U := unit) Valid) 10
               (Filter [MkEvent "elliot" "login"; MkEvent "" "access";
                        MkEvent "elliot" "logout"]
                       pred_of_caller yield_to_driver) (empty_world tt) with
     | Done (_, _, tr) => Some tr
     | _ => None
     end) = Some [MkEvent "elliot" "login"; MkEvent "elliot" "logout"].
Proof. vm_compute. reflexivity. Qed.

(** Over 30, 20, 10, "is even" keeps all three and "> 15" keeps 30, 20. *)
Example filter_scenario :
  (exists w tr,
     run (pure_callbacks (U := unit) Z.even) 10
         (Filter [30; 20; 10]%Z pred_of_caller yield_to_driver) (empty_world tt)
       = Done (tt, w, tr) /\ yielded tr = [30; 20; 10]%Z) /\
  (exists w tr,
     run (pure_callbacks (U := unit) (fun v => 15 <? v)%Z) 10
         (Filter [30; 20; 10]%Z pred_of_caller yield_to_driver) (empty_world tt)
       = Done (tt, w, tr) /\ yielded tr = [30; 20]%Z).
Proof. split; eexists _, _; (split; [vm_compute; reflexivity|reflexivity]). Qed.

(** ** The theorems at work on the data of the programs *)

Lemma main_stack_chain :
  stacks main_stack.2 !! main_stack.1 = Some (MkStack (Some 3%positive)) /\
  chain (nodes main_stack.2) (Some 3%positive) [30; 20; 10]%Z.
Proof.
  split; [vm_compute; reflexivity|].
  apply (chain_cons _ 3%positive 30%Z (Some 2%positive)); [vm_compute; reflexivity|].
  apply (chain_cons _ 2%positive 20%Z (Some 1%positive)); [vm_compute; reflexivity|].
  apply (chain_cons _ 1%positive 10%Z None); [vm_compute; reflexivity|].
  apply chain_nil.
Qed.

Lemma push_pop_LIFO_witness :
  stacks fresh_stack.2 !! fresh_stack.1 = Some (MkStack None) /\
  exists w1 w2,
    push_all fresh_stack.1 [10; 20; 30]%Z fresh_stack.2 = Done w1 /\
    pop_n fresh_stack.1 3 w1 = Done ([(30, None); (20, None); (10, None)]%Z, w2) /\
    stacks w2 !! fresh_stack.1 = Some (MkStack None).
Proof.
  split; [vm_compute; reflexivity|].
  apply (push_pop_LIFO fresh_stack.2 fresh_stack.1 (MkStack None) [10; 20; 30]%Z).
  vm_compute; reflexivity.
Defined.

Lemma Pop_empty_ErrEmpty_witness :
  is_empty fresh_stack.2 fresh_stack.1 /\
  pop_n fresh_stack.1 2 fresh_stack.2 =
    Done ([(0%Z, Some ErrEmpty); (0%Z, Some ErrEmpty)], fresh_stack.2).
Proof.
  split; [vm_compute; reflexivity|].
  apply (proj1 (proj2 (proj2 (Pop_empty_ErrEmpty (T := Z) (U := unit))))
           fresh_stack.2 fresh_stack.1 2).
  vm_compute; reflexivity.
Defined.

Lemma Pop_empty_atomic_witness :
  exists w',
    Pop fresh_stack.1 fresh_stack.2 = Done ((0%Z, Some ErrEmpty), w') /\
    w' = fresh_stack.2 /\ stacks w' !! fresh_stack.1 = Some (MkStack None).
Proof.
  apply (Pop_empty_atomic fresh_stack.2 fresh_stack.1 (MkStack None)).
  - vm_compute; reflexivity.
  - reflexivity.
Defined.

Lemma cursors_independent_witness :
  exists c1 c2 w1 w2,
    Items main_stack.1 main_stack.2 = Done (c1, w1) /\
    Items main_stack.1 w1 = Done (c2, w2) /\ c1 <> c2 /\
    forall fuel, 3 < fuel ->
      (exists w3 w4,
         drain fuel c1 w2 = Done ([30; 20; 10]%Z, w3) /\
         drain fuel c2 w3 = Done ([30; 20; 10]%Z, w4)) /\
      (exists w3, drain fuel c2 w2 = Done ([30; 20; 10]%Z, w3)) /\
      (forall ops, exists w3 w4 w5,
         mutate main_stack.1 ops w2 = Done w3 /\
         drain fuel c1 w3 = Done ([30; 20; 10]%Z, w4) /\
         drain fuel c2 w4 = Done ([30; 20; 10]%Z, w5)).
Proof.
  apply (cursors_independent main_stack.2 main_stack.1 (MkStack (Some 3%positive))
           [30; 20; 10]%Z).
  - apply main_stack_chain.
  - apply main_stack_chain.
Defined.

Lemma pushing_callbacks_keep_nodes (v : Z) (w0 : world Z unit) :
  nodes w0 ⊆ nodes (on_yield pushing_callbacks v w0).2.
Proof.
  unfold pushing_callbacks. cbn [on_yield]. unfold Push.
  destruct (stacks w0 !! main_stack.1); simpl; [|reflexivity].
  apply insert_subseteq, fresh_node_None.
Qed.

Lemma Iter_protocol_witness :
  exists w' tr,
    (forall fuel, 4 * 3 + 1 < fuel ->
       run pushing_callbacks fuel (Iter main_stack.1 yield_to_driver) main_stack.2
         = Done (tt, w', tr)) /\
    (w', tr) = protocol (on_yield pushing_callbacks) [30; 20; 10]%Z main_stack.2 /\
    pred_args tr = [] /\
    yielded tr `prefix_of` [30; 20; 10]%Z /\
    (forall i, yield_answers tr !! i = Some false -> S i = length (yield_answers tr)) /\
    (false ∉ yield_answers tr -> yielded tr = [30; 20; 10]%Z).
Proof.
  apply (Iter_protocol pushing_callbacks main_stack.2 main_stack.1
           (MkStack (Some 3%positive)) [30; 20; 10]%Z).
  - apply main_stack_chain.
  - apply main_stack_chain.
  - apply pushing_callbacks_keep_nodes.
Defined.

(** That loop body is called on 30, 20 and 10, answers false on 10, and has
    pushed 31, 21 and 11 meanwhile: the traversal saw none of them. *)
Example Iter_while_pushing :
  exists w,
    run pushing_callbacks 14 (Iter main_stack.1 yield_to_driver) main_stack.2 =
      Done (tt, w, [YieldCall 30 true; YieldCall 20 true; YieldCall 10 false]%Z) /\
    chain (nodes w) (head (default (MkStack None) (stacks w !! main_stack.1)))
          [11; 21; 31; 30; 20; 10]%Z.
Proof.
  eexists. split; [vm_compute; reflexivity|].
  repeat (eapply chain_cons; [vm_compute; reflexivity|]). apply chain_nil.
Qed.

Lemma Filter_emits_matching_witness :
  exists w' tr,
    (forall fuel, 2 * 3 < fuel ->
       run (Callbacks (fun _ w => (true, w)) (fun v w => (Z.even v, w))) fuel
           (Filter [1; 2; 4]%Z pred_of_caller yield_to_driver) (empty_world tt)
         = Done (tt, w', tr)) /\
    yielded tr = [2; 4]%Z /\
    length (yielded tr) = 2 /\
    pred_args tr = [1; 2; 4]%Z.
Proof.
  apply (proj1 (Filter_emits_matching (U := unit) Z.even (fun _ w => w)
                  [1; 2; 4]%Z (empty_world tt))).
Defined.

Lemma Filter_lazy_witness :
  (forall fuel, 2 + 2 < fuel ->
     run first_even_callbacks fuel
         (Filter ([1; 3] ++ 4 :: [5; 6; 8])%Z pred_of_caller yield_to_driver)
         (empty_world tt) =
       Done (tt, empty_world tt,
             [PredCall 1 false; PredCall 3 false; PredCall 4 true; YieldCall 4 false]%Z)) /\
  (forall fuel, 2 + 1 < fuel ->
     exists k,
       pull first_even_callbacks fuel
            (Pull (Filter ([1; 3] ++ 4 :: [5; 6; 8])%Z pred_of_caller)) (empty_world tt) =
         Done ((4%Z, true), Suspended k, empty_world tt)).
Proof.
  apply (Filter_lazy (U := unit) Z.even (fun _ w => (false, w))
           [1; 3]%Z 4%Z [5; 6; 8]%Z (empty_world tt)).
  - repeat constructor.
  - reflexivity.
  - reflexivity.
Defined.

Lemma Max_largest_witness :
  exists m,
    (forall fuel, 10 + 3 <= fuel ->
       Max (pure_callbacks (fun _ => true)) fuel (Bug.Ints 3) (empty_world tt)
         = Done ((m, None), empty_world tt) /\
       exists out,
         Bug.Max (pure_callbacks (fun _ => true)) fuel (Bug.Ints 3) (empty_world tt)
           = Done ((m, None), out, empty_world tt)) /\
    m ∈ [0; 1; 2]%Z /\
    (forall x, x ∈ [0; 1; 2]%Z -> gt x m = false) /\
    m = 2%Z.
Proof.
  refine (Max_largest (U := unit) (pure_callbacks (fun _ => true)) (Bug.Ints 3)
            (empty_world tt) 10 (empty_world tt)
            [YieldCall 0 true; YieldCall 1 true; YieldCall 2 true]%Z _ _).
  - vm_compute; reflexivity.
  - discriminate.
Defined.

Lemma Max_empty_witness :
  Max (pure_callbacks (fun _ => true)) 5 (Bug.Ints 0) (empty_world tt) =
    Done ((0%Z, Some (ErrorString "Max of empty sequence")), empty_world tt) /\
  exists out,
    Bug.Max (pure_callbacks (fun _ => true)) 5 (Bug.Ints 0) (empty_world tt) =
      Done ((0%Z, Some (ErrorString "Max of empty sequence")), out, empty_world tt).
Proof.
  apply (Max_empty (U := unit) (pure_callbacks (fun _ => true)) (Bug.Ints 0)
           (empty_world tt) 5 (empty_world tt) []).
  - vm_compute; reflexivity.
  - reflexivity.
  - lia.
Defined.

Lemma Max_variants_agree_witness :
  Max (pure_callbacks (fun _ => true)) 10 (Bug.Ints 3) (empty_world tt) =
    Done ((2%Z, None), empty_world tt).
Proof.
  rewrite (proj1 (Max_variants_agree (U := unit) (pure_callbacks (fun _ => true)) 10
                    (Bug.Ints 3) (empty_world tt))).
  vm_compute; reflexivity.
Defined.

(** * Further properties of the programs *)

(** ** The stack as a list *)

Section StackModel.
Context {T U : Type} `{Zero T}.
Implicit Types (w : world T U) (s c : loc) (vs : list T).

Lemma mutate_elements s ops : forall w st vs,
  stacks w !! s = Some st ->
  chain (nodes w) (head st) vs ->
  exists w' st',
    mutate s ops w = Done w' /\
    stacks w' !! s = Some st' /\
    chain (nodes w') (head st') (foldl apply_op vs ops) /\
    nodes w ⊆ nodes w' /\ iters w' = iters w /\ ext w' = ext w /\
    (forall s', s' <> s -> stacks w' !! s' = stacks w !! s').
Proof.
  induction ops as [|op ops IH]; intros w st vs Hs Hch.
  - exists w, st. by repeat split.
  - destruct op as [v|]; simpl.
    + rewrite (Push_Done _ _ _ _ Hs).
      set (p := fresh (dom (nodes w))). set (w0 := World _ _ _ _).
      assert (Hsub : nodes w ⊆ nodes w0).
      { unfold w0. simpl. apply insert_subseteq, fresh_node_None. }
      destruct (IH w0 (MkStack (Some p)) (v :: vs))
        as (w' & st' & Hm & Hs' & Hch' & Hsub' & Hit & Hext & Hoth).
      { unfold w0. simpl. by rewrite lookup_insert_eq. }
      { simpl. econstructor.
        - unfold w0. simpl. by rewrite lookup_insert_eq.
        - eapply chain_mono; [exact Hsub|exact Hch]. }
      exists w', st'. repeat split; try done; [by etrans|].
      intros s' Hne. rewrite (Hoth s' Hne). unfold w0. simpl.
      by rewrite lookup_insert_ne.
    + unfold Pop. rewrite Hs. destruct st as [hd]. simpl in Hch |- *.
      inversion Hch as [|p v nx vs0 Hp Hch0]; subst.
      * destruct (IH w (MkStack None) [] Hs) as (w' & st' & ?); [done|].
        by exists w', st'.
      * rewrite Hp. simpl. set (w0 := World _ _ _ _).
        destruct (IH w0 (MkStack nx) vs0)
          as (w' & st' & Hm & Hs' & Hch' & Hsub' & Hit & Hext & Hoth).
        { unfold w0. simpl. by rewrite lookup_insert_eq. }
        { done. }
        exists w', st'. repeat split; try done.
        intros s' Hne. rewrite (Hoth s' Hne). unfold w0. simpl.
        by rewrite lookup_insert_ne.
Qed.

(** X1 — Pushes and pops act on the elements of the stack as on a list, top
    first: a push puts its value in front, a pop removes the first element
    and does nothing to an empty stack.  They leave every existing node,
    every cursor, every other stack and the caller's variables as they
    were. *)
Theorem mutate_list_model s ops w st vs :
  stacks w !! s = Some st ->
  chain (nodes w) (head st) vs ->
  exists w' st',
    mutate s ops w = Done w' /\
    stacks w' !! s = Some st' /\
    chain (nodes w') (head st') (foldl apply_op vs ops) /\
    nodes w ⊆ nodes w' /\ iters w' = iters w /\ ext w' = ext w /\
    (forall s', s' <> s -> stacks w' !! s' = stacks w !! s').
Proof. apply mutate_elements. Qed.

(** X2 — Popping [k] times a stack whose elements are [vs] returns the first [k]
    of them, in order, each with a nil error, then [ErrEmpty] with the zero
    value for every pop beyond the last element; the stack is left with the
    elements that were not popped. *)
Theorem pop_n_take_drop s k : forall w st vs,
  stacks w !! s = Some st ->
  chain (nodes w) (head st) vs ->
  exists w' st',
    pop_n s k w =
      Done (((fun v => (v, None)) <$> take k vs) ++
            replicate (k - length vs) (zero, Some ErrEmpty), w') /\
    stacks w' !! s = Some st' /\
    chain (nodes w') (head st') (drop k vs) /\
    nodes w' = nodes w.
Proof.
  induction k as [|k IH]; intros w st vs Hs Hch.
  - exists w, st. rewrite drop_0. by repeat split.
  - rewrite pop_n_S. unfold Pop. rewrite Hs. destruct st as [hd]. simpl in Hch |- *.
    inversion Hch as [|p v nx vs0 Hp Hch0]; subst.
    + destruct (IH w (MkStack None) [] Hs Hch) as (w' & st' & Hpop & Hs' & Hch' & Hn).
      rewrite Hpop. exists w', st'.
      rewrite take_nil, drop_nil in *. simpl in *. rewrite Nat.sub_0_r.
      by repeat split.
    + rewrite Hp. simpl. set (w0 := World _ _ _ _).
      destruct (IH w0 (MkStack nx) vs0) as (w' & st' & Hpop & Hs' & Hch' & Hn).
      { unfold w0. simpl. by rewrite lookup_insert_eq. }
      { done. }
      rewrite Hpop. exists w', st'. by repeat split.
Qed.

End StackModel.

(** ** Cursors, step by step *)

Section CursorFacts.
Context {T U : Type} `{Zero T}.
Implicit Types (w : world T U) (s c : loc) (vs : list T).

Lemma next_n_S c k w :
  next_n c (S k) w =
    match Next c w with
    | Done (r, w1) =>
        match next_n c k w1 with
        | Done (rs, w2) => Done (r :: rs, w2)
        | Panic => Panic
        | OutOfFuel => OutOfFuel
        end
    | Panic => Panic
    | OutOfFuel => OutOfFuel
    end.
Proof. reflexivity. Qed.

(** X3 — Calling [Next] [k] times on a cursor that has the elements [vs] ahead of
    it returns the first [k] of them, in order, each with [true], then the
    zero value with [false] for every call past the end, however many; the
    cursor is left before the elements not yet returned, and the calls touch
    no node, no stack, no other cursor and no variable of the caller. *)
Theorem Next_steps c k : forall w it vs,
  iters w !! c = Some it ->
  chain (nodes w) (it_node it) vs ->
  exists w' it',
    next_n c k w =
      Done (((fun v => (v, true)) <$> take k vs) ++
            replicate (k - length vs) (zero, false), w') /\
    iters w' !! c = Some it' /\
    chain (nodes w') (it_node it') (drop k vs) /\
    nodes w' = nodes w /\ stacks w' = stacks w /\ ext w' = ext w /\
    (forall c', c' <> c -> iters w' !! c' = iters w !! c').
Proof.
  induction k as [|k IH]; intros w it vs Hc Hch.
  - exists w, it. rewrite drop_0. by repeat split.
  - rewrite next_n_S. unfold Next. rewrite Hc. destruct it as [nd]. simpl in Hch |- *.
    inversion Hch as [|p v nx vs0 Hp Hch0]; subst.
    + destruct (IH w (MkStackIterator None) [] Hc Hch)
        as (w' & it' & Hn & Hc' & Hch' & Hnodes & Hst & Hext & Hoth).
      rewrite Hn. exists w', it'.
      rewrite take_nil, drop_nil in *. simpl in *. rewrite Nat.sub_0_r.
      by repeat split.
    + rewrite Hp. simpl. set (w0 := World _ _ _ _).
      destruct (IH w0 (MkStackIterator nx) vs0)
        as (w' & it' & Hn & Hc' & Hch' & Hnodes & Hst & Hext & Hoth).
      { unfold w0. simpl. by rewrite lookup_insert_eq. }
      { done. }
      rewrite Hn. exists w', it'. repeat split; try done.
      intros c' Hne. rewrite (Hoth c' Hne). unfold w0. simpl.
      by rewrite lookup_insert_ne.
Qed.

(** X4 — A new cursor looks at the top of the stack without removing it: its
    first [Next] returns the element [Pop] would return, with [true], and
    reports the end exactly when [Pop] reports [ErrEmpty]; the stack and the
    nodes are as before. *)
Theorem Items_Next_peeks w s st vs :
  stacks w !! s = Some st ->
  chain (nodes w) (head st) vs ->
  exists c w1 r w2,
    Items s w = Done (c, w1) /\ Next c w1 = Done (r, w2) /\
    stacks w2 = stacks w /\ nodes w2 = nodes w /\
    match vs with
    | [] => r = (zero, false) /\ Pop s w = Done ((zero, Some ErrEmpty), w)
    | v :: _ => r = (v, true) /\ exists w3, Pop s w = Done ((v, None), w3)
    end.
Proof.
  intros Hs Hch.
  set (c := fresh (dom (iters w))).
  set (w1 := World (nodes w) (stacks w)
                   (<[c := MkStackIterator (head st)]> (iters w)) (ext w)).
  assert (Hc : iters w1 !! c = Some (MkStackIterator (head st))).
  { unfold w1. simpl. by rewrite lookup_insert_eq. }
  exists c, w1. unfold Next, Pop. rewrite Hc, Hs, (Items_Done w s st Hs).
  destruct st as [hd]. simpl in Hch |- *.
  inversion Hch as [|p v nx vs0 Hp Hch0]; subst.
  - by eexists _, _.
  - rewrite Hp. simpl. eexists _, _. repeat split. by eexists.
Qed.

End CursorFacts.

(** ** PrintItems, Do and Iter2 *)

Section TraversalFacts.
Context {T U : Type} `{Zero T} `{Fmt T}.
Implicit Types (w : world T U) (s : loc) (vs : list T).

Lemma PrintItems_loop_chain p vs : forall w fuel,
  chain (nodes w) p vs ->
  length vs < fuel ->
  PrintItems_loop fuel p w = Done (sprint <$> vs).
Proof.
  intros w. revert p. induction vs as [|v vs IH]; intros p fuel Hch Hfuel;
    inversion Hch as [|p' v' nx vs' Hp Hch']; subst.
  - by destruct fuel.
  - destruct fuel as [|fuel]; [simpl in Hfuel; lia|].
    simpl. rewrite Hp. simpl. rewrite (IH nx fuel Hch'); [done|simpl in Hfuel; lia].
Qed.

(** X5 — [PrintItems] prints the elements of the stack, one per line, from the
    top: the last pushed first. *)
Theorem PrintItems_lines w s st vs fuel :
  stacks w !! s = Some st ->
  chain (nodes w) (head st) vs ->
  length vs < fuel ->
  PrintItems s fuel w = Done (sprint <$> vs).
Proof.
  intros Hs Hch Hfuel. unfold PrintItems. rewrite Hs.
  by apply PrintItems_loop_chain.
Qed.

Lemma Do_loop_chain (yield : T -> world T U -> world T U) :
  (forall v w0, nodes w0 ⊆ nodes (yield v w0)) ->
  forall vs p w fuel,
    chain (nodes w) p vs ->
    length vs < fuel ->
    Do_loop fuel yield p w = Done (foldl (fun w v => yield v w) w vs, vs).
Proof.
  intros Hmono vs. induction vs as [|v vs IH]; intros p w fuel Hch Hfuel;
    inversion Hch as [|p' v' nx vs' Hp Hch']; subst.
  - by destruct fuel.
  - destruct fuel as [|fuel]; [simpl in Hfuel; lia|].
    simpl. rewrite Hp. simpl.
    rewrite (lookup_weaken _ _ _ _ Hp (Hmono v w)). simpl.
    rewrite (IH nx (yield v w) fuel); [done| |simpl in Hfuel; lia].
    eapply chain_mono; [apply Hmono|exact Hch'].
Qed.

Lemma protocol_always (g : T -> world T U -> world T U) vs : forall w,
  protocol (fun v w => (true, g v w)) vs w =
    (foldl (fun w v => g v w) w vs, (fun v => YieldCall v true) <$> vs).
Proof.
  induction vs as [|v vs IH]; intros w; [done|].
  simpl. by rewrite IH.
Qed.

(** X6 — [Do] calls [yield] on every element of the stack, once each, from the
    top, whatever [yield] does short of overwriting nodes (it cannot ask to
    stop); it leaves the memory that ranging over [Iter] with the same body
    and no [break] leaves. *)
Theorem Do_visits_all (yield : T -> world T U -> world T U)
    (pr : T -> world T U -> bool * world T U) w s st vs :
  stacks w !! s = Some st ->
  chain (nodes w) (head st) vs ->
  (forall v w0, nodes w0 ⊆ nodes (yield v w0)) ->
  (forall fuel, length vs < fuel ->
     Do s yield fuel w = Done (foldl (fun w v => yield v w) w vs, vs)) /\
  (forall fuel, 4 * length vs + 1 < fuel ->
     run (Callbacks (fun v w => (true, yield v w)) pr) fuel
         (Iter s yield_to_driver) w =
       Done (tt, foldl (fun w v => yield v w) w vs,
             (fun v => YieldCall v true) <$> vs)).
Proof.
  intros Hs Hch Hmono. split.
  - intros fuel Hfuel. unfold Do. rewrite Hs. by apply Do_loop_chain.
  - intros fuel Hfuel.
    destruct (Iter_loop_runs (Callbacks (fun v w => (true, yield v w)) pr)
                (fun v w0 => Hmono v w0) vs (head st) w Hch) as (n & Hn & Hr).
    simpl in Hr. rewrite protocol_always in Hr. simpl in Hr.
    eapply (runs_run _ (1 + n)); [|lia].
    unfold Iter, mbind, itree_mbind.
    match goal with |- runs _ _ _ _ _ _ ?tr => change tr with ([] ++ tr) end.
    eapply runs_bind; [|exact Hr].
    apply runs_trigger. simpl. by rewrite Hs.
Qed.

Lemma wrap_int_id (z : Z) : (- 2 ^ 63 <= z < 2 ^ 63)%Z -> wrap_int z = z.
Proof. intros Hz. unfold wrap_int. rewrite Z.mod_small; lia. Qed.

Lemma Iter2_loop_chain (yield : Z -> T -> world T U -> bool * world T U) :
  (forall i v w0, nodes w0 ⊆ nodes (yield i v w0).2) ->
  forall vs i p w fuel,
    chain (nodes w) p vs ->
    (0 <= i)%Z -> (i + Z.of_nat (length vs) <= 2 ^ 63)%Z ->
    length vs < fuel ->
    Iter2_loop fuel yield i p w = Done (protocol2 yield i vs w).
Proof.
  intros Hmono vs. induction vs as [|v vs IH]; intros i p w fuel Hch Hi Hlen Hfuel;
    inversion Hch as [|p' v' nx vs' Hp Hch']; subst.
  - by destruct fuel.
  - destruct fuel as [|fuel]; [simpl in Hfuel; lia|].
    simpl. rewrite Hp. simpl.
    pose proof (Hmono i v w) as Hsub.
    destruct (yield i v w) as [[] w1]; simpl in *; [|done].
    rewrite (lookup_weaken _ _ _ _ Hp Hsub). simpl.
    assert (Hch1 : chain (nodes w1) nx vs) by (by eapply chain_mono).
    destruct vs as [|v2 vs].
    + inversion Hch1; subst. by destruct fuel.
    + rewrite wrap_int_id by (simpl length in Hlen; lia).
      rewrite (IH (i + 1)%Z nx w1 fuel Hch1); [|lia|simpl length in *; lia|lia].
      by destruct (protocol2 yield (i + 1) (v2 :: vs) w1).
Qed.

Lemma protocol2_calls (yield : Z -> T -> world T U -> bool * world T U) vs :
  forall i w,
  let tr := (protocol2 yield i vs w).2 in
  tr.*1.*1 = seqZ i (Z.of_nat (length tr)) /\
  tr.*1.*2 `prefix_of` vs /\
  (forall k, tr.*2 !! k = Some false -> S k = length tr) /\
  (false ∉ tr.*2 -> tr.*1.*2 = vs).
Proof.
  induction vs as [|v vs IH]; intros i w; cbn [protocol2].
  - repeat split; done.
  - destruct (yield i v w) as [[] w1].
    + specialize (IH (i + 1)%Z w1).
      destruct (protocol2 yield (i + 1) vs w1) as [w2 tr].
      cbv zeta in IH |- *. cbn [snd] in IH |- *.
      destruct IH as (Hidx & Hpre & Hlast & Hall).
      rewrite !fmap_cons. cbn [fst snd length].
      repeat split.
      * rewrite Hidx.
        replace (Z.of_nat (S (length tr))) with (Z.succ (Z.of_nat (length tr))) by lia.
        rewrite (seqZ_cons i) by lia. f_equal. f_equal; lia.
      * by apply prefix_cons.
      * intros [|k]; simpl; [done|]. intros Hk. f_equal. by apply Hlast.
      * intros Hno. f_equal. apply Hall. intros Hin. apply Hno. by right.
    + cbv zeta. cbn [snd]. repeat split.
      * apply prefix_cons, prefix_nil.
      * by intros [|k].
      * intros Hno. exfalso. apply Hno. by left.
Qed.

(** X7 — The function returned by [Iter2] obeys the protocol with positions: for
    a stack of fewer than 2^63 elements and a consumer that leaves the nodes
    in place, it returns after calling the consumer on the elements from the
    top, each with its position counted from 0, up to and including the
    first on which the consumer answered false. *)
Theorem Iter2_indexed (yield : Z -> T -> world T U -> bool * world T U) w s st vs :
  stacks w !! s = Some st ->
  chain (nodes w) (head st) vs ->
  (forall i v w0, nodes w0 ⊆ nodes (yield i v w0).2) ->
  (Z.of_nat (length vs) <= 2 ^ 63)%Z ->
  exists w' tr,
    (forall fuel, length vs < fuel -> Iter2 s yield fuel w = Done (w', tr)) /\
    (w', tr) = protocol2 yield 0 vs w /\
    tr.*1.*1 = seqZ 0 (Z.of_nat (length tr)) /\
    tr.*1.*2 `prefix_of` vs /\
    (forall k, tr.*2 !! k = Some false -> S k = length tr) /\
    (false ∉ tr.*2 -> tr.*1.*2 = vs).
Proof.
  intros Hs Hch Hmono Hlen.
  pose proof (protocol2_calls yield vs 0%Z w) as Hcalls.
  destruct (protocol2 yield 0 vs w) as [w' tr] eqn:Hp. simpl in Hcalls.
  exists w', tr. split; [|by split].
  intros fuel Hfuel. unfold Iter2. rewrite Hs.
  rewrite (Iter2_loop_chain yield Hmono vs 0%Z (head st) w fuel);
    [by rewrite Hp|done|done|lia|done].
Qed.

End TraversalFacts.

(** ** Ints *)

Section IntsFacts.
Context {U : Type}.
Implicit Types (cb : callbacks Z U) (w : world Z U).

Lemma Ints_loop_runs cb (n : Z) : forall k i w,
  Z.to_nat (n - i) = k ->
  exists m, m <= 2 * k /\
    runs cb m
      (ITree.iter (fun i : Z =>
         if (i <? n)%Z then
           ok ← yield_to_driver i;
           if negb ok then Ret (inr tt) else Ret (inl (i + 1)%Z)
         else Ret (inr tt)) i)
      w tt
      (protocol (on_yield cb) (seqZ i (n - i)) w).1
      (protocol (on_yield cb) (seqZ i (n - i)) w).2.
Proof.
  induction k as [|k IH]; intros i w Hk.
  - exists 0. split; [done|].
    assert (Hlt : (i <? n)%Z = false) by (apply Z.ltb_ge; lia).
    unfold seqZ. rewrite Hk. simpl.
    apply runs_iter_exit. rewrite Hlt. by apply runs_ret.
  - assert (Hlt : (i <? n)%Z = true) by (apply Z.ltb_lt; lia).
    rewrite (seqZ_cons i (n - i)) by lia.
    replace (Z.succ i) with (i + 1)%Z by lia.
    replace (Z.pred (n - i)) with (n - (i + 1))%Z by lia.
    simpl protocol. destruct (on_yield cb i w) as [[] w1] eqn:Hy.
    + destruct (IH (i + 1)%Z w1 ltac:(lia)) as (m & Hm & Hr).
      destruct (protocol (on_yield cb) (seqZ (i + 1) (n - (i + 1))) w1) as [w2 tr].
      simpl in *. exists (1 + S m). split; [lia|].
      change (YieldCall i true :: tr) with ([YieldCall i true] ++ tr).
      eapply runs_iter_again; [|exact Hr].
      cbv beta. rewrite Hlt. unfold mbind, itree_mbind.
      eapply (runs_call_yield cb 0 i); [exact Hy|]. by apply runs_ret.
    + simpl. exists 1. split; [lia|].
      apply runs_iter_exit. rewrite Hlt. unfold mbind, itree_mbind.
      eapply (runs_call_yield cb 0 i); [exact Hy|]. by apply runs_ret.
Qed.

(** X8 — [Ints(n)] obeys the protocol on the integers from 0 up to [n], [n]
    excluded: it returns after calling the consumer on 0, 1, 2, ... in
    order, up to and including the first on which the consumer answered
    false, or up to [n - 1]; for [n <= 0] it calls nothing.  It does not
    touch the memory itself. *)
Theorem Ints_counts cb (n : Z) w :
  exists w' tr,
    (forall fuel, 2 * Z.to_nat n < fuel ->
       run cb fuel (Bug.Ints n yield_to_driver) w = Done (tt, w', tr)) /\
    (w', tr) = protocol (on_yield cb) (seqZ 0 n) w /\
    pred_args tr = [] /\
    yielded tr `prefix_of` seqZ 0 n /\
    (forall i, yield_answers tr !! i = Some false -> S i = length (yield_answers tr)) /\
    (false ∉ yield_answers tr -> yielded tr = seqZ 0 n).
Proof.
  destruct (Ints_loop_runs cb n (Z.to_nat n) 0%Z w ltac:(f_equal; lia)) as (m & Hm & Hr).
  rewrite Z.sub_0_r in Hr.
  pose proof (protocol_calls (on_yield cb) (seqZ 0 n) w) as Hcalls.
  destruct (protocol (on_yield cb) (seqZ 0 n) w) as [w' tr]. simpl in *.
  exists w', tr. split; [|by split].
  intros fuel Hfuel. eapply (runs_run cb m); [exact Hr|lia].
Qed.

End IntsFacts.

(** ** Max over the producers of the programs *)

Section MaxMore.
Context {T U : Type} `{Zero T} `{Ordered T} `{Fmt T}.
Implicit Types (cb : callbacks T U) (w : world T U) (vs : list T).

Lemma protocol_to_the_end cb vs w :
  protocol (on_yield (to_the_end cb)) vs w = (w, (fun v => YieldCall v true) <$> vs).
Proof. induction vs as [|v vs IH]; [done|]. simpl in *. by rewrite IH. Qed.

Lemma yielded_all vs : yielded ((fun v => YieldCall v true) <$> vs) = vs.
Proof. induction vs as [|v vs IH]; [done|]. simpl. f_equal. exact IH. Qed.

(** Ranging over the sequence of a stack to the end. *)
Lemma Iter_runs_to_the_end cb w s st vs :
  stacks w !! s = Some st ->
  chain (nodes w) (head st) vs ->
  exists n, n <= 4 * length vs + 1 /\
    runs (to_the_end cb) n (Iter s yield_to_driver) w tt w
         ((fun v => YieldCall v true) <$> vs).
Proof.
  intros Hs Hch.
  destruct (Iter_loop_runs (to_the_end cb) (fun _ _ => reflexivity _) vs (head st) w Hch)
    as (n & Hn & Hr).
  rewrite protocol_to_the_end in Hr. simpl in Hr.
  exists (1 + n). split; [lia|].
  unfold Iter, mbind, itree_mbind.
  match goal with |- runs _ _ _ _ _ _ ?tr => change tr with ([] ++ tr) end.
  eapply runs_bind; [|exact Hr].
  apply runs_trigger. simpl. by rewrite Hs.
Qed.

(** X10 — [Max(s.Iter())]: on a stack with elements, the largest of them, under a
    total order, with a nil error; on an empty stack, the zero value with
    the error.  The stack and the rest of the memory are left as they
    were. *)
Theorem Max_of_stack `{!TotalOrder T} cb w s st vs fuel :
  stacks w !! s = Some st ->
  chain (nodes w) (head st) vs ->
  5 * length vs + 1 < fuel ->
  match vs with
  | [] => Max cb fuel (Iter s) w =
            Done ((zero, Some (ErrorString "Max of empty sequence")), w)
  | v :: rest =>
      exists m, Max cb fuel (Iter s) w = Done ((m, None), w) /\
                m ∈ vs /\ forall x, x ∈ vs -> gt x m = false
  end.
Proof.
  intros Hs Hch Hfuel.
  destruct (Iter_runs_to_the_end cb w s st vs Hs Hch) as (n & Hn & Hr).
  pose proof (Max_runs cb (Iter s) w n w _ fuel Hr) as HM.
  rewrite yielded_all in HM. specialize (HM ltac:(lia)).
  destruct vs as [|v rest]; [done|].
  exists (running_max v rest). split; [done|]. split.
  - apply running_max_elem.
  - intros x. apply running_max_upper.
Qed.

(** X11 — With any comparison at all, total or not (floating-point numbers with
    NaN are [cmp.Ordered]), [Max] of a sequence that passes elements returns
    one of them, with a nil error; and it returns the first element when no
    later element is greater than it: an element equal to the running
    maximum does not replace it. *)
Theorem Max_any_order cb (seq : Seq T) w fuel0 w' tr v vs :
  run (to_the_end cb) fuel0 (seq yield_to_driver) w = Done (tt, w', tr) ->
  yielded tr = v :: vs ->
  exists m,
    (forall fuel, fuel0 + length (yielded tr) <= fuel ->
       Max cb fuel seq w = Done ((m, None), w')) /\
    m ∈ v :: vs /\
    (Forall (fun x => gt x v = false) vs -> m = v).
Proof.
  intros Hrun Hy. destruct (run_runs _ _ _ _ _ _ _ Hrun) as (n & Hn & Hr).
  exists (running_max v vs). split; [|split].
  - intros fuel Hfuel.
    rewrite (Max_runs cb seq w n w' tr fuel Hr); rewrite Hy; [done|].
    rewrite Hy in Hfuel. lia.
  - apply running_max_elem.
  - clear. induction 1 as [|x vs Hx _ IH]; [done|].
    unfold running_max. simpl. by rewrite Hx.
Qed.

(** The loop of bug.go's [Max] over what is left of a sequence: it prints a
    line for each element it pulls. *)
Lemma Bug_max_loop_runs cb vs : forall n t c w w' tr m fuel out,
  pending c = Some t ->
  runs (to_the_end cb) n t w tt w' tr ->
  yielded tr = vs ->
  n + length vs + 1 < fuel ->
  Bug.max_loop cb fuel m c w out =
    Done (running_max m vs, Finished, w',
          out ++ ((fun v => ">>> v: " +:+ sprint v) <$> vs)).
Proof.
  induction vs as [|v vs IH]; intros n t c w w' tr m [|fuel] out Hc Hr Hy Hfuel;
    try lia; pose proof (resume_of_runs cb n t w w' tr Hr) as Hres;
    rewrite Hy in Hres; simpl; rewrite (pull_pending _ _ _ _ _ Hc).
  - rewrite Hres by lia. by rewrite app_nil_r.
  - destruct Hres as (n1 & n2 & k & w1 & tr' & -> & Hres & Hk & Hy').
    rewrite Hres by lia.
    rewrite (IH n2 (k true) _ w1 w' tr'); [|done..|simpl in Hfuel; lia].
    by rewrite <-app_assoc.
Qed.

(** X12 — What bug.go's [Max] prints: nothing on an empty sequence; otherwise a
    line [>>> m:] with the first element, then a line [>>> v:] with each of
    the others, in order. *)
Theorem Bug_Max_prints cb (seq : Seq T) w fuel0 w' tr fuel :
  run (to_the_end cb) fuel0 (seq yield_to_driver) w = Done (tt, w', tr) ->
  fuel0 + length (yielded tr) <= fuel ->
  Bug.Max cb fuel seq w =
    match yielded tr with
    | [] => Done ((zero, Some (ErrorString "Max of empty sequence")), [], w')
    | v :: vs =>
        Done ((running_max v vs, None),
              (">>> m: " +:+ sprint v) :: ((fun x => ">>> v: " +:+ sprint x) <$> vs),
              w')
    end.
Proof.
  intros Hrun Hfuel. destruct (run_runs _ _ _ _ _ _ _ Hrun) as (n & Hn & Hr).
  unfold Bug.Max.
  rewrite (pull_pending cb fuel (Pull seq) (seq yield_to_driver)) by done.
  pose proof (resume_of_runs cb n _ w w' tr Hr) as Hres.
  destruct (yielded tr) as [|v vs].
  - by rewrite Hres by lia.
  - destruct Hres as (n1 & n2 & k & w1 & tr' & -> & Hres & Hk & Hy').
    rewrite Hres by lia. simpl negb. cbv iota.
    rewrite (Bug_max_loop_runs cb vs n2 (k true) (Suspended k) w1 w' tr' v fuel);
      [done..|simpl in Hfuel; lia].
Qed.

End MaxMore.

Section MaxInts.
Context {U : Type}.
Implicit Types (cb : callbacks Z U) (w : world Z U).

Lemma running_max_seqZ (k : nat) : forall m : Z,
  running_max m (seqZ (m + 1) (Z.of_nat k)) = (m + Z.of_nat k)%Z.
Proof.
  induction k as [|k IH]; intros m.
  - simpl. lia.
  - rewrite (seqZ_cons (m + 1)) by lia.
    change (running_max m ((m + 1)%Z :: ?l))
      with (running_max (if gt (m + 1)%Z m then (m + 1)%Z else m) l).
    assert (Hgt : gt (m + 1)%Z m = true)
      by (unfold gt, Z_ordered; rewrite Z.gtb_ltb; apply Z.ltb_lt; lia).
    rewrite Hgt.
    replace (Z.succ (m + 1)) with (m + 1 + 1)%Z by lia.
    replace (Z.pred (Z.of_nat (S k))) with (Z.of_nat k) by lia.
    rewrite IH. lia.
Qed.

(** X9 — [Max(Ints(n))], the program of bug.go: for [n > 0] it returns [n - 1]
    with a nil error, for [n <= 0] the zero value with the error; in both
    variants of [Max]. *)
Theorem Max_of_Ints cb (n : Z) w fuel :
  3 * Z.to_nat n < fuel ->
  Max cb fuel (Bug.Ints n) w =
    (if (0 <? n)%Z then Done ((n - 1, None), w)
     else Done ((0, Some (ErrorString "Max of empty sequence")), w))%Z /\
  exists out,
    Bug.Max cb fuel (Bug.Ints n) w =
      (if (0 <? n)%Z then Done ((n - 1, None), out, w)
       else Done ((0, Some (ErrorString "Max of empty sequence")), out, w))%Z.
Proof.
  intros Hfuel.
  destruct (Ints_loop_runs (to_the_end cb) n (Z.to_nat n) 0%Z w ltac:(f_equal; lia))
    as (m & Hm & Hr).
  rewrite Z.sub_0_r, protocol_to_the_end in Hr. simpl in Hr.
  assert (HM : Max cb fuel (Bug.Ints n) w =
    (if (0 <? n)%Z then Done ((n - 1, None), w)
     else Done ((0, Some (ErrorString "Max of empty sequence")), w))%Z).
  { rewrite (Max_runs cb (Bug.Ints n) w m w _ fuel Hr);
      rewrite yielded_all; [|rewrite length_seqZ; lia].
    destruct (0 <? n)%Z eqn:Hn.
    - apply Z.ltb_lt in Hn. rewrite (seqZ_cons 0 n) by lia.
      pose proof (running_max_seqZ (Z.to_nat (n - 1)) 0%Z) as Hrm.
      replace (Z.of_nat (Z.to_nat (n - 1))) with (Z.pred n) in Hrm by lia.
      change (0 + 1)%Z with (Z.succ 0) in Hrm. rewrite Hrm.
      do 3 f_equal.
    - apply Z.ltb_ge in Hn. unfold seqZ.
      by replace (Z.to_nat n) with 0 by lia. }
  split; [exact HM|].
  destruct (0 <? n)%Z; by apply Bug_Max_of_Max.
Qed.

End MaxInts.

(** ** Filter against any consumer, and under Max *)

Section FilterMore.
Context {T U : Type} `{Zero T} `{Ordered T}.
Implicit Types (cb : callbacks T U) (w : world T U) (values : list T).

Local Abbreviation Floop' := (Filter_loop pred_of_caller yield_to_driver).

Lemma yielded_yield_calls (tr : list (call T)) : yielded (yield_calls tr) = yielded tr.
Proof. induction tr as [|[v b|v b] tr IH]; simpl; [done| |done]. by rewrite IH. Qed.

Lemma Filter_loop_protocol (P : T -> bool) (y : T -> world T U -> bool * world T U)
    values : forall w,
  exists n tr,
    n <= 2 * length values /\
    runs (Callbacks y (fun v w => (P v, w))) n (Floop' values) w tt
         (protocol y (List.filter P values) w).1 tr /\
    yield_calls tr = (protocol y (List.filter P values) w).2 /\
    pred_args tr `prefix_of` values.
Proof.
  induction values as [|v rest IH]; intros w.
  - exists 0, []. repeat split; [done|by apply runs_ret|done].
  - simpl List.filter. destruct (P v) eqn:HP.
    + simpl protocol. destruct (y v w) as [[] w1] eqn:Hy.
      * destruct (IH w1) as (n & tr & Hn & Hr & Hyc & Hpre).
        destruct (protocol y (List.filter P rest) w1) as [w2 tr2]. simpl in *.
        exists (S (S n)), (PredCall v true :: YieldCall v true :: tr).
        split; [lia|]. split; [|split].
        -- eapply Filter_loop_emit; [simpl; by rewrite HP|exact Hy|exact Hr].
        -- simpl. by rewrite Hyc.
        -- simpl. by apply prefix_cons.
      * simpl. exists 2, [PredCall v true; YieldCall v false].
        split; [lia|]. split; [|split].
        -- eapply Filter_loop_break; [simpl; by rewrite HP|exact Hy].
        -- done.
        -- simpl. apply prefix_cons, prefix_nil.
    + destruct (IH w) as (n & tr & Hn & Hr & Hyc & Hpre).
      exists (S n), (PredCall v false :: tr).
      split; [simpl; lia|]. split; [|split].
      * eapply Filter_loop_skip; [simpl; by rewrite HP|exact Hr].
      * done.
      * simpl. by apply prefix_cons.
Qed.

(** X13 — [Filter(values, P)] is itself a producer that obeys the protocol, on
    the elements of [values] that satisfy [P]: against any consumer, it
    returns after calling the consumer exactly as the protocol asks for that
    list, so a consumer that stops early has received an initial part of
    the matching elements, and every value it received satisfies [P]. *)
Theorem Filter_protocol (P : T -> bool) (y : T -> world T U -> bool * world T U)
    values w :
  exists w' tr,
    (forall fuel, 2 * length values < fuel ->
       run (Callbacks y (fun v w => (P v, w))) fuel
           (Filter values pred_of_caller yield_to_driver) w = Done (tt, w', tr)) /\
    (w', yield_calls tr) = protocol y (List.filter P values) w /\
    yielded tr `prefix_of` List.filter P values /\
    Forall (fun v => P v = true) (yielded tr) /\
    (false ∉ yield_answers tr -> yielded tr = List.filter P values).
Proof.
  destruct (Filter_loop_protocol P y values w) as (n & tr & Hn & Hr & Hyc & Hpre).
  pose proof (protocol_calls y (List.filter P values) w) as (_ & Hpf & _ & Hall).
  destruct (protocol y (List.filter P values) w) as [w' tr2]. simpl in *. subst tr2.
  rewrite yielded_yield_calls in Hpf, Hall.
  exists w', tr. split; [|split; [done|split; [done|split]]].
  - intros fuel Hfuel. eapply runs_run; [exact Hr|lia].
  - destruct Hpf as [rest Hrest].
    assert (HF : Forall (fun v => P v = true) (List.filter P values)).
    { apply Forall_forall. intros x Hx. apply list_elem_of_In, filter_In in Hx. tauto. }
    rewrite Hrest in HF. by apply Forall_app in HF as [? _].
  - intros Hno. apply Hall.
    assert (Heq : yield_answers (yield_calls tr) = yield_answers tr).
    { clear. induction tr as [|[v b|v b] tr IH]; simpl; [done| |done]. by rewrite IH. }
    by rewrite Heq.
Qed.

Lemma foldl_same {A} (l : list A) w : foldl (fun w _ => w) w l = w.
Proof. by induction l. Qed.

(** X14 — [Max(Filter(values, P))]: the largest, under a total order, of the
    elements of [values] that satisfy [P], with a nil error; the zero value
    and the error when none does, an empty [values] included. *)
Theorem Max_of_Filter `{!TotalOrder T} (P : T -> bool)
    (y : T -> world T U -> bool * world T U) values w fuel :
  3 * length values < fuel ->
  match List.filter P values with
  | [] =>
      Max (Callbacks y (fun v w => (P v, w))) fuel (Filter values pred_of_caller) w =
        Done ((zero, Some (ErrorString "Max of empty sequence")), w)
  | _ :: _ =>
      exists m,
        Max (Callbacks y (fun v w => (P v, w))) fuel (Filter values pred_of_caller) w =
          Done ((m, None), w) /\
        m ∈ values /\ P m = true /\
        forall x, x ∈ values -> P x = true -> gt x m = false
  end.
Proof.
  intros Hfuel.
  destruct (Filter_loop_all (U := U) P (fun _ w => w) values w)
    as (n & tr & Hn & Hr & Hy & Hp).
  rewrite foldl_same in Hr.
  pose proof (Max_runs (Callbacks y (fun v w => (P v, w)))
                (Filter values pred_of_caller) w n w tr fuel Hr) as HM.
  rewrite Hy in HM.
  assert (Hlen : length (List.filter P values) <= length values).
  { clear. induction values as [|v vs IH]; simpl; [done|]. destruct (P v); simpl; lia. }
  specialize (HM ltac:(lia)).
  destruct (List.filter P values) as [|v vs] eqn:Hf; [done|].
  exists (running_max v vs). split; [done|].
  assert (Hin : forall x, x ∈ v :: vs <-> x ∈ values /\ P x = true).
  { intros x. rewrite <-Hf, !list_elem_of_In. apply filter_In. }
  pose proof (proj1 (Hin _) (running_max_elem v vs)) as [? ?].
  repeat split; try done.
  intros x Hx HPx. apply running_max_upper. apply Hin. by split.
Qed.

End FilterMore.

(** X15 — The filter program keeps an event exactly when its user and its kind
    are both non-empty: ranged over by a loop that never breaks,
    [Filter(events, Event.Valid)] passes those events to the loop body, in
    their order in [events], and no other. *)
Theorem Filter_Valid_events {U} (g : Event -> world Event U -> world Event U)
    (events : list Event) (w : world Event U) :
  exists w' tr,
    (forall fuel, 2 * length events < fuel ->
       run (Callbacks (fun v w => (true, g v w)) (fun v w => (Valid v, w))) fuel
           (Filter events pred_of_caller yield_to_driver) w = Done (tt, w', tr)) /\
    yielded tr = List.filter Valid events /\
    (forall e, e ∈ yielded tr <-> e ∈ events /\ User e <> "" /\ Kind e <> "").
Proof.
  destruct (Filter_loop_all Valid g events w) as (n & tr & Hn & Hr & Hy & Hp).
  eexists _, tr. split; [|split; [done|]].
  - intros fuel Hfuel. eapply runs_run; [exact Hr|lia].
  - intros e. rewrite Hy, !list_elem_of_In, filter_In. unfold Valid.
    destruct (bool_decide_reflect (User e = "")) as [Hu|Hu],
             (bool_decide_reflect (Kind e = "")) as [Hk|Hk]; simpl;
      (split; [intros [? ?]|intros (? & ? & ?)]); try done; by repeat split.
Qed.

(** ** An iterator function and a cursor, after the stack has changed *)

Section IterVsCursor.
Context {T U : Type} `{Zero T}.
Implicit Types (cb : callbacks T U) (w : world T U) (vs : list T).

(** X16 — The function returned by [Iter] reads the head of the stack when it is
    called, a cursor when it is created: after any pushes and pops made
    since, ranging over [s.Iter()] visits the elements the stack has now,
    while a cursor created before them still yields the elements the stack
    had then. *)
Theorem Iter_reads_head_when_called cb w s st vs ops :
  stacks w !! s = Some st ->
  chain (nodes w) (head st) vs ->
  exists c w1 w2,
    Items s w = Done (c, w1) /\
    mutate s ops w1 = Done w2 /\
    (forall fuel, 4 * length (foldl apply_op vs ops) + 1 < fuel ->
       run (to_the_end cb) fuel (Iter s yield_to_driver) w2 =
         Done (tt, w2, (fun v => YieldCall v true) <$> foldl apply_op vs ops)) /\
    (forall fuel, length vs < fuel -> exists w3, drain fuel c w2 = Done (vs, w3)).
Proof.
  intros Hs Hch.
  set (c := fresh (dom (iters w))).
  set (w1 := World (nodes w) (stacks w)
                   (<[c := MkStackIterator (head st)]> (iters w)) (ext w)).
  destruct (mutate_elements s ops w1 st vs Hs Hch)
    as (w2 & st2 & Hm & Hs2 & Hch2 & Hsub & Hit & _).
  exists c, w1, w2. split; [by rewrite (Items_Done w s st Hs)|]. split; [done|]. split.
  - intros fuel Hfuel.
    destruct (Iter_runs_to_the_end cb w2 s st2 _ Hs2 Hch2) as (n & Hn & Hr).
    eapply runs_run; [exact Hr|lia].
  - intros fuel Hfuel. eexists.
    apply (drain_chain c (head st) vs); [|by eapply chain_mono|done].
    rewrite Hit. unfold w1. simpl. by rewrite lookup_insert_eq.
Qed.

End IterVsCursor.

(** ** These properties on the data of the programs *)

Lemma main_cursor_chain :
  iters main_cursor.2 !! main_cursor.1 = Some (MkStackIterator (Some 3%positive)) /\
  chain (nodes main_cursor.2) (Some 3%positive) [30; 20; 10]%Z.
Proof.
  split; [vm_compute; reflexivity|].
  apply (chain_cons _ 3%positive 30%Z (Some 2%positive)); [vm_compute; reflexivity|].
  apply (chain_cons _ 2%positive 20%Z (Some 1%positive)); [vm_compute; reflexivity|].
  apply (chain_cons _ 1%positive 10%Z None); [vm_compute; reflexivity|].
  apply chain_nil.
Qed.

Lemma mutate_list_model_witness :
  exists w' st',
    mutate main_stack.1 [DoPop; DoPush 5%Z; DoPop; DoPop] main_stack.2 = Done w' /\
    stacks w' !! main_stack.1 = Some st' /\
    chain (nodes w') (head st') [10%Z] /\
    nodes main_stack.2 ⊆ nodes w' /\ iters w' = iters main_stack.2 /\
    ext w' = ext main_stack.2 /\
    (forall s', s' <> main_stack.1 -> stacks w' !! s' = stacks main_stack.2 !! s').
Proof.
  refine (mutate_list_model main_stack.1 [DoPop; DoPush 5%Z; DoPop; DoPop]
            main_stack.2 (MkStack (Some 3%positive)) [30; 20; 10]%Z _ _);
    apply main_stack_chain.
Defined.

Lemma pop_n_take_drop_witness :
  exists w' st',
    pop_n main_stack.1 4 main_stack.2 =
      Done ([(30, None); (20, None); (10, None); (0, Some ErrEmpty)]%Z, w') /\
    stacks w' !! main_stack.1 = Some st' /\
    chain (nodes w') (head st') [] /\
    nodes w' = nodes main_stack.2.
Proof.
  refine (pop_n_take_drop main_stack.1 4 main_stack.2 (MkStack (Some 3%positive))
            [30; 20; 10]%Z _ _); apply main_stack_chain.
Defined.

Lemma Next_steps_witness :
  exists w' it',
    next_n main_cursor.1 5 main_cursor.2 =
      Done ([(30, true); (20, true); (10, true); (0, false); (0, false)]%Z, w') /\
    iters w' !! main_cursor.1 = Some it' /\
    chain (nodes w') (it_node it') [] /\
    nodes w' = nodes main_cursor.2 /\ stacks w' = stacks main_cursor.2 /\
    ext w' = ext main_cursor.2 /\
    (forall c', c' <> main_cursor.1 -> iters w' !! c' = iters main_cursor.2 !! c').
Proof.
  refine (Next_steps main_cursor.1 5 main_cursor.2 (MkStackIterator (Some 3%positive))
            [30; 20; 10]%Z _ _); apply main_cursor_chain.
Defined.

Lemma Items_Next_peeks_witness :
  exists c w1 r w2,
    Items main_stack.1 main_stack.2 = Done (c, w1) /\ Next c w1 = Done (r, w2) /\
    stacks w2 = stacks main_stack.2 /\ nodes w2 = nodes main_stack.2 /\
    r = (30%Z, true) /\
    exists w3, Pop main_stack.1 main_stack.2 = Done ((30%Z, None), w3).
Proof.
  refine (Items_Next_peeks main_stack.2 main_stack.1 (MkStack (Some 3%positive))
            [30; 20; 10]%Z _ _); apply main_stack_chain.
Defined.

Lemma PrintItems_lines_witness :
  PrintItems main_stack.1 4 main_stack.2 = Done ["30"; "20"; "10"].
Proof.
  refine (PrintItems_lines main_stack.2 main_stack.1 (MkStack (Some 3%positive))
            [30; 20; 10]%Z 4 _ _ _); [apply main_stack_chain..|simpl; lia].
Defined.

Lemma Do_visits_all_witness :
  (forall fuel, 3 < fuel ->
     Do main_stack.1 pushing_body fuel main_stack.2 =
       Done (foldl (fun w v => pushing_body v w) main_stack.2 [30; 20; 10]%Z,
             [30; 20; 10]%Z)) /\
  (forall fuel, 4 * 3 + 1 < fuel ->
     run (Callbacks (fun v w => (true, pushing_body v w)) (fun _ w => (true, w))) fuel
         (Iter main_stack.1 yield_to_driver) main_stack.2 =
       Done (tt, foldl (fun w v => pushing_body v w) main_stack.2 [30; 20; 10]%Z,
             [YieldCall 30 true; YieldCall 20 true; YieldCall 10 true]%Z)).
Proof.
  refine (Do_visits_all pushing_body (fun _ w => (true, w)) main_stack.2 main_stack.1
            (MkStack (Some 3%positive)) [30; 20; 10]%Z _ _ _);
    [apply main_stack_chain..|apply pushing_callbacks_keep_nodes].
Defined.

Lemma Iter2_indexed_witness :
  exists w' tr,
    (forall fuel, 3 < fuel ->
       Iter2 main_stack.1 (fun i _ w => ((i <? 1)%Z, w)) fuel main_stack.2 = Done (w', tr)) /\
    (w', tr) = (main_stack.2, [(0, 30, true); (1, 20, false)]%Z) /\
    tr.*1.*1 = seqZ 0 (Z.of_nat (length tr)) /\
    tr.*1.*2 `prefix_of` [30; 20; 10]%Z /\
    (forall k, tr.*2 !! k = Some false -> S k = length tr) /\
    (false ∉ tr.*2 -> tr.*1.*2 = [30; 20; 10]%Z).
Proof.
  refine (Iter2_indexed (fun i _ w => ((i <? 1)%Z, w)) main_stack.2 main_stack.1
            (MkStack (Some 3%positive)) [30; 20; 10]%Z _ _ _ _);
    [apply main_stack_chain..|reflexivity|simpl; lia].
Defined.

Lemma Max_of_Ints_witness :
  Max (pure_callbacks (fun _ => true)) 10 (Bug.Ints 3) (empty_world tt) =
    Done ((2%Z, None), empty_world tt) /\
  exists out,
    Bug.Max (pure_callbacks (fun _ => true)) 10 (Bug.Ints 3) (empty_world tt) =
      Done ((2%Z, None), out, empty_world tt).
Proof.
  refine (Max_of_Ints (U := unit) (pure_callbacks (fun _ => true)) 3 (empty_world tt) 10 _).
  simpl; lia.
Defined.

Lemma Max_of_stack_witness :
  exists m,
    Max (pure_callbacks (fun _ => true)) 17 (Iter main_stack.1) main_stack.2 =
      Done ((m, None), main_stack.2) /\
    m ∈ [30; 20; 10]%Z /\ forall x, x ∈ [30; 20; 10]%Z -> gt x m = false.
Proof.
  refine (Max_of_stack (pure_callbacks (fun _ => true)) main_stack.2 main_stack.1
            (MkStack (Some 3%positive)) [30; 20; 10]%Z 17 _ _ _);
    [apply main_stack_chain..|simpl; lia].
Defined.

Lemma Max_any_order_witness :
  exists m,
    (forall fuel, 10 + 3 <= fuel ->
       Max (pure_callbacks (fun _ => true)) fuel (Filter [7; 7; 3]%Z pred_of_caller)
           (empty_world tt) = Done ((m, None), empty_world tt)) /\
    m ∈ [7; 7; 3]%Z /\
    (Forall (fun x => gt x 7%Z = false) [7; 3]%Z -> m = 7%Z).
Proof.
  refine (Max_any_order (U := unit) (pure_callbacks (fun _ => true))
            (Filter [7; 7; 3]%Z pred_of_caller) (empty_world tt) 10 (empty_world tt)
            [PredCall 7 true; YieldCall 7 true; PredCall 7 true; YieldCall 7 true;
             PredCall 3 true; YieldCall 3 true]%Z 7%Z [7; 3]%Z _ _).
  - vm_compute; reflexivity.
  - reflexivity.
Defined.

Lemma Bug_Max_prints_witness :
  Bug.Max (pure_callbacks (fun _ => true)) 13 (Bug.Ints 3) (empty_world tt) =
    Done ((2%Z, None), [">>> m: 0"; ">>> v: 1"; ">>> v: 2"], empty_world tt).
Proof.
  refine (Bug_Max_prints (U := unit) (pure_callbacks (fun _ => true)) (Bug.Ints 3)
            (empty_world tt) 10 (empty_world tt)
            [YieldCall 0 true; YieldCall 1 true; YieldCall 2 true]%Z 13 _ _).
  - vm_compute; reflexivity.
  - simpl; lia.
Defined.

Lemma Max_of_Filter_witness :
  exists m,
    Max (Callbacks (fun _ w => (true, w)) (fun v w => (Z.even v, w))) 13
        (Filter [1; 4; 2; 5]%Z pred_of_caller) (empty_world tt) =
      Done ((m, None), empty_world tt) /\
    m ∈ [1; 4; 2; 5]%Z /\ Z.even m = true /\
    forall x, x ∈ [1; 4; 2; 5]%Z -> Z.even x = true -> gt x m = false.
Proof.
  refine (Max_of_Filter (U := unit) Z.even (fun _ w => (true, w)) [1; 4; 2; 5]%Z
            (empty_world tt) 13 _).
  simpl; lia.
Defined.

Lemma Iter_reads_head_when_called_witness :
  exists c w1 w2,
    Items main_stack.1 main_stack.2 = Done (c, w1) /\
    mutate main_stack.1 [DoPop; DoPush 5%Z] w1 = Done w2 /\
    (forall fuel, 4 * 3 + 1 < fuel ->
       run (to_the_end (pure_callbacks (fun _ => true))) fuel
           (Iter main_stack.1 yield_to_driver) w2 =
         Done (tt, w2, [YieldCall 5 true; YieldCall 20 true; YieldCall 10 true]%Z)) /\
    (forall fuel, 3 < fuel -> exists w3, drain fuel c w2 = Done ([30; 20; 10]%Z, w3)).
Proof.
  refine (Iter_reads_head_when_called (pure_callbacks (fun _ => true)) main_stack.2
            main_stack.1 (MkStack (Some 3%positive)) [30; 20; 10]%Z
            [DoPop; DoPush 5%Z] _ _); apply main_stack_chain.
Defined.
